(** * knowhere/comp/thread_pool.h

    A shallow embedding of [knowhere::ThreadPool], its process-wide registry
    of the build and the search pool, [ThreadPool::ScopedOmpSetter] and
    [WaitAllSuccess], with the properties of the unit stated over it.

    Conventions.  A C++ integer is a [Z] kept in the range of its type; the
    conversions between the types are written out in [Int].  The statics of
    the class, the objects owned through [std::shared_ptr], the thread budget
    of OpenMP and the log live in one [State], threaded through the member
    functions by a state monad that fails on a dangling dereference. *)

From stdpp Require Import base numbers option strings list.

Local Open Scope Z_scope.

(** ** Machine integers *)

Module Int.

(** [uint32_t] and [unsigned int]. *)
Definition is_uint32 (z : Z) : Prop := 0 <= z < 2 ^ 32.
Definition to_uint32 (z : Z) : Z := z mod 2 ^ 32.

(** [size_t] on the LP64 targets of the library. *)
Definition is_size_t (z : Z) : Prop := 0 <= z < 2 ^ 64.
Definition to_size_t (z : Z) : Z := z mod 2 ^ 64.

(** [int32_t] and [int]. *)
Definition INT32_MAX : Z := 2 ^ 31 - 1.
Definition is_int32 (z : Z) : Prop := - 2 ^ 31 <= z < 2 ^ 31.
Definition to_int32 (z : Z) : Z := (z + 2 ^ 31) mod 2 ^ 32 - 2 ^ 31.

End Int.

(** ** The executor behind a pool *)

(** Modelled from the spec: [folly::CPUThreadPoolExecutor], its
    [LifoSemMPMCQueue] and its thread factories are external collaborators
    (folly is not part of the repository).  The executor is taken at its
    interface: it is constructed from a thread count, the capacity of a
    blocking queue and a thread factory naming the workers, it answers
    [numThreads()] with the configured thread count and [setNumThreads(n)]
    replaces that count. *)
Inductive ThreadFactory : Type :=
| NamedThreadFactory (prefix : string)
| LowPriorityThreadFactory (prefix : string).

Definition factory_prefix (f : ThreadFactory) : string :=
  match f with
  | NamedThreadFactory p => p
  | LowPriorityThreadFactory p => p
  end.

Record CPUThreadPoolExecutor : Type := mkExecutor {
  exec_numThreads : Z;        (* size_t *)
  exec_queue_capacity : Z;    (* size_t, QueueBehaviorIfFull::BLOCK *)
  exec_factory : ThreadFactory
}.

Definition numThreads (e : CPUThreadPoolExecutor) : Z := exec_numThreads e.

Definition setNumThreads (n : Z) (e : CPUThreadPoolExecutor) : CPUThreadPoolExecutor :=
  {| exec_numThreads := n;
     exec_queue_capacity := exec_queue_capacity e;
     exec_factory := exec_factory e |}.

(** ** Logging *)

Inductive LogLevel : Type := INFO | ERROR.

(** A line of the log: the text streamed into the logger followed by the
    integer streamed after it, when there is one. *)
Record LogEntry : Type := mkLog {
  log_level : LogLevel;
  log_text : string;
  log_arg : option Z
}.

(** ** The pool object *)

Definition kTaskQueueFactor : Z := 16.

Record ThreadPool : Type := mkThreadPool { pool_ : CPUThreadPoolExecutor }.

(** The platform of the build: [true] where [__linux__] is defined. *)
Definition thread_factory (linux : bool) (prefix : string) : ThreadFactory :=
  if linux then LowPriorityThreadFactory prefix else NamedThreadFactory prefix.

(** [ThreadPool::ThreadPool(uint32_t num_threads, const std::string&)].
    The product is taken in [size_t], the type of [kTaskQueueFactor]. *)
Definition ThreadPool_new (linux : bool) (num_threads : Z) (thread_name_prefix : string)
  : ThreadPool :=
  {| pool_ :=
       {| exec_numThreads := Int.to_size_t num_threads;
          exec_queue_capacity := Int.to_size_t (num_threads * kTaskQueueFactor);
          exec_factory := thread_factory linux thread_name_prefix |} |}.

(** [int32_t size() const noexcept]: the [size_t] of the executor narrowed
    to the return type. *)
Definition size (p : ThreadPool) : Z := Int.to_int32 (numThreads (pool_ p)).

Definition queue_capacity (p : ThreadPool) : Z := exec_queue_capacity (pool_ p).
Definition name_prefix (p : ThreadPool) : string := factory_prefix (exec_factory (pool_ p)).

(** ** Process state *)

Inductive WorkloadClass : Type := Build | Search.

Global Instance WorkloadClass_eq_dec : EqDecision WorkloadClass.
Proof. solve_decision. Defined.

(** A [std::shared_ptr<ThreadPool>]: [None] is [nullptr], [Some a] owns the
    object at index [a] of the heap. *)
Definition ptr : Type := option nat.

Record State : Type := mkState {
  heap : list ThreadPool;
  build_pool_ : ptr;
  search_pool_ : ptr;
  omp_nthreads : Z;           (* the thread budget of the OpenMP runtime *)
  log : list LogEntry
}.

Definition initial_state (omp : Z) : State :=
  {| heap := []; build_pool_ := None; search_pool_ := None;
     omp_nthreads := omp; log := [] |}.

(** A process in which only the build pool has been created, on Linux, with
    [threads] threads. *)
Definition build_pool_state (threads omp : Z) : State :=
  {| heap := [ThreadPool_new true threads "knowhere_build"];
     build_pool_ := Some 0%nat; search_pool_ := None;
     omp_nthreads := omp; log := [] |}.

(** Assignments to one component of the state. *)
Definition with_heap (h : list ThreadPool) (s : State) : State :=
  {| heap := h; build_pool_ := build_pool_ s; search_pool_ := search_pool_ s;
     omp_nthreads := omp_nthreads s; log := log s |}.

Definition with_omp (n : Z) (s : State) : State :=
  {| heap := heap s; build_pool_ := build_pool_ s; search_pool_ := search_pool_ s;
     omp_nthreads := n; log := log s |}.

Definition with_log (e : LogEntry) (s : State) : State :=
  {| heap := heap s; build_pool_ := build_pool_ s; search_pool_ := search_pool_ s;
     omp_nthreads := omp_nthreads s; log := log s ++ [e] |}.

Definition global_pool (c : WorkloadClass) (s : State) : ptr :=
  match c with
  | Build => build_pool_ s
  | Search => search_pool_ s
  end.

Definition with_global_pool (c : WorkloadClass) (a : ptr) (s : State) : State :=
  match c with
  | Build =>
      {| heap := heap s; build_pool_ := a; search_pool_ := search_pool_ s;
         omp_nthreads := omp_nthreads s; log := log s |}
  | Search =>
      {| heap := heap s; build_pool_ := build_pool_ s; search_pool_ := a;
         omp_nthreads := omp_nthreads s; log := log s |}
  end.

(** ** The monad of member functions *)

Definition M (A : Type) : Type := State → option (A * State).

Global Instance M_ret : MRet M := λ A x s, Some (x, s).
Global Instance M_bind : MBind M := λ A B f m s,
  match m s with
  | Some (x, s') => f x s'
  | None => None
  end.

Definition LOG_KNOWHERE (lvl : LogLevel) (text : string) (arg : option Z) : M unit :=
  λ s, Some (tt, with_log (mkLog lvl text arg) s).

Definition LOG_KNOWHERE_INFO_ := LOG_KNOWHERE INFO.
Definition LOG_KNOWHERE_ERROR_ := LOG_KNOWHERE ERROR.

(** [std::make_shared<ThreadPool>(...)]: a fresh object at the end of the heap. *)
Definition make_shared (p : ThreadPool) : M nat :=
  λ s, Some (length (heap s), with_heap (heap s ++ [p]) s).

(** [*a]: undefined on a pointer that owns nothing. *)
Definition deref (a : nat) : M ThreadPool :=
  λ s, match heap s !! a with
       | Some p => Some (p, s)
       | None => None
       end.

(** An assignment through [a] to the object it owns. *)
Definition store (a : nat) (p : ThreadPool) : M unit :=
  λ s, Some (tt, with_heap (<[a := p]> (heap s)) s).

Definition read_global_pool (c : WorkloadClass) : M ptr :=
  λ s, Some (global_pool c s, s).

Definition write_global_pool (c : WorkloadClass) (a : ptr) : M unit :=
  λ s, Some (tt, with_global_pool c a s).

(** Modelled from the spec: the nested parallel runtime (OpenMP, outside the
    repository) is taken at its interface, [get_max_threads()] and
    [set_max_threads(n)] over one process-wide budget.  The interface is
    that of positive budgets: what a runtime does with an argument that is
    not positive is left to the implementation (libgomp sets the budget to
    1) and is not part of the model, so the properties of the setter are
    stated for positive priors and positive sizes of the build pool. *)
Definition omp_get_max_threads : M Z := λ s, Some (omp_nthreads s, s).

Definition omp_set_num_threads (n : Z) : M unit :=
  λ s, Some (tt, with_omp n s).

(** ** Member functions of [ThreadPool] *)

(** [a->size()]. *)
Definition ThreadPool_size (a : nat) : M Z :=
  p ← deref a; mret (size p).

(** [void SetNumThreads(uint32_t num_threads)] on the object at [a]. *)
Definition SetNumThreads (a : nat) (num_threads : Z) : M unit :=
  if num_threads =? 0 then
    LOG_KNOWHERE_ERROR_ "set number of threads can not be 0" None
  else
    p ← deref a;
    store a {| pool_ := setNumThreads (Int.to_size_t num_threads) (pool_ p) |}.

(** ** The registry *)

(** The two families of static functions differ in the static they use, the
    name given to the workers and the word in the log lines; they are
    embedded once, over the workload class. *)
Definition class_prefix (c : WorkloadClass) : string :=
  match c with
  | Build => "knowhere_build"
  | Search => "knowhere_search"
  end.

Definition msg_init (c : WorkloadClass) : string :=
  match c with
  | Build => "Init global build thread pool with size "
  | Search => "Init global search thread pool with size "
  end.

Definition msg_already_initialized (c : WorkloadClass) : string :=
  match c with
  | Build => "Global build thread pool size has already been initialized to "
  | Search => "Global search thread pool size has already been initialized to "
  end.

Definition msg_already_set (c : WorkloadClass) : string :=
  match c with
  | Build => "Global build thread pool size has already been set to "
  | Search => "Global search thread pool size has already been set to "
  end.

Section Registry.

(** Whether the unit is compiled for Linux. *)
Variable linux : bool.

(** [static void InitGlobal{Build,Search}ThreadPool(uint32_t num_threads)].
    The lock guard spans the inner test; in one thread of control taking
    and releasing the mutex leaves no trace. *)
Definition InitGlobalThreadPool (c : WorkloadClass) (num_threads : Z) : M unit :=
  if num_threads <=? 0 then
    LOG_KNOWHERE_ERROR_ "num_threads should be bigger than 0" None
  else
    outer ← read_global_pool c;
    match outer with
    | None =>
        inner ← read_global_pool c;
        match inner with
        | None =>
            a ← make_shared (ThreadPool_new linux num_threads (class_prefix c));
            write_global_pool c (Some a);;
            LOG_KNOWHERE_INFO_ (msg_init c) (Some num_threads)
        | Some _ => mret tt
        end
    | Some a =>
        sz ← ThreadPool_size a;
        LOG_KNOWHERE_INFO_ (msg_already_initialized c) (Some sz)
    end.

(** [static void SetGlobal{Build,Search}ThreadPoolSize(uint32_t num_threads)]. *)
Definition SetGlobalThreadPoolSize (c : WorkloadClass) (num_threads : Z) : M unit :=
  p ← read_global_pool c;
  match p with
  | None => InitGlobalThreadPool c num_threads
  | Some a =>
      SetNumThreads a num_threads;;
      sz ← ThreadPool_size a;
      LOG_KNOWHERE_INFO_ (msg_already_set c) (Some sz)
  end.

(** [static std::shared_ptr<ThreadPool> GetGlobal{Build,Search}ThreadPool()];
    [hardware_concurrency] is what [std::thread::hardware_concurrency()]
    answers, an [unsigned int]. *)
Definition GetGlobalThreadPool (c : WorkloadClass) (hardware_concurrency : Z) : M ptr :=
  p ← read_global_pool c;
  match p with
  | None => InitGlobalThreadPool c hardware_concurrency
  | Some _ => mret tt
  end;;
  read_global_pool c.

Definition InitGlobalBuildThreadPool := InitGlobalThreadPool Build.
Definition InitGlobalSearchThreadPool := InitGlobalThreadPool Search.
Definition SetGlobalBuildThreadPoolSize := SetGlobalThreadPoolSize Build.
Definition SetGlobalSearchThreadPoolSize := SetGlobalThreadPoolSize Search.
Definition GetGlobalBuildThreadPool := GetGlobalThreadPool Build.
Definition GetGlobalSearchThreadPool := GetGlobalThreadPool Search.

End Registry.

(** ** [ThreadPool::ScopedOmpSetter] *)

Section ScopedOmpSetter.

Record ScopedOmpSetter : Type := mkSetter { omp_before : Z }.

(** [explicit ScopedOmpSetter(int num_threads = 0)]. *)
Definition ScopedOmpSetter_ctor (num_threads : Z) : M ScopedOmpSetter :=
  p ← read_global_pool Build;
  before ← match p with
           | None => omp_get_max_threads
           | Some a => ThreadPool_size a
           end;
  omp_set_num_threads (if num_threads <=? 0 then before else num_threads);;
  mret {| omp_before := before |}.

(** [~ScopedOmpSetter()]. *)
Definition ScopedOmpSetter_dtor (g : ScopedOmpSetter) : M unit :=
  omp_set_num_threads (omp_before g).

(** A block [{ ScopedOmpSetter setter(n); body }]. *)
Definition scoped {A : Type} (num_threads : Z) (body : M A) : M A :=
  g ← ScopedOmpSetter_ctor num_threads;
  r ← body;
  ScopedOmpSetter_dtor g;;
  mret r.

End ScopedOmpSetter.

(** ** [WaitAllSuccess] *)

(** Modelled from the spec: knowhere/expected.h is not among the sources.
    [Status] is its enumeration of status codes: [Status::success] and the
    non-success codes. *)
Inductive Status : Type :=
| success
| non_success (code : nat).

Global Instance Status_eq_dec : EqDecision Status.
Proof. solve_decision. Defined.

(** Modelled from the spec: the future and promise machinery of folly is an
    external collaborator.  A completed handle holds a [folly::Try<T>]: the
    payload of the task or the error it raised; [collectAll(...).get()]
    blocks until every handle has completed and yields their results in the
    order of the handles. *)
Record exception_wrapper : Type := mkException { what : string }.

Inductive Try (T : Type) : Type :=
| Value (v : T)
| Exception (e : exception_wrapper).
Arguments Value {T} v.
Arguments Exception {T} e.

Record Future (T : Type) : Type := mkFuture { completion : Try T }.
Arguments mkFuture {T} completion.
Arguments completion {T} f.

Definition collectAll_get {T : Type} (futures : list (Future T)) : list (Try T) :=
  map completion futures.

(** What a call of [WaitAllSuccess] does: it returns a status or it throws. *)
Inductive Outcome : Type :=
| Return (st : Status)
| Throw (e : exception_wrapper).

(** The payload types allowed by the [static_assert]: [folly::Unit] and
    [Status].  [is_Unit] is [std::is_same_v<T, folly::Unit>]; [value_status]
    reads a payload as a status where the [if constexpr] branch is compiled. *)
Class FutureValue (T : Type) : Type := {
  is_Unit : bool;
  value_status : T → Status
}.

Global Instance Unit_FutureValue : FutureValue unit :=
  {| is_Unit := true; value_status := λ _, success |}.

Global Instance Status_FutureValue : FutureValue Status :=
  {| is_Unit := false; value_status := λ st, st |}.

Section WaitAllSuccess.

Context {T : Type} `{FutureValue T}.

(** The [for] loop over [allFuts], then the final [return Status::success]. *)
Fixpoint WaitAllSuccess_loop (allFuts : list (Try T)) : Outcome :=
  match allFuts with
  | [] => Return success
  | result :: rest =>
      match result with
      | Exception e => Throw e            (* result.throwUnlessValue() *)
      | Value v =>
          if negb is_Unit && negb (bool_decide (value_status v = success))
          then Return (value_status v)
          else WaitAllSuccess_loop rest
      end
  end.

Definition WaitAllSuccess (futures : list (Future T)) : Outcome :=
  WaitAllSuccess_loop (collectAll_get futures).

(** A payload the loop steps over: any [folly::Unit], and the success status. *)
Definition passes (v : T) : Prop := is_Unit = true ∨ value_status v = success.

End WaitAllSuccess.

(** Handles that completed with a payload, and with a raised error. *)
Definition ready {T : Type} (v : T) : Future T := mkFuture (Value v).
Definition failed {T : Type} (e : exception_wrapper) : Future T := mkFuture (Exception e).

(** ** Callers *)

(** A caller constructing a pool of its own, [std::make_shared<ThreadPool>(n, prefix)]. *)
Definition construct (linux : bool) (num_threads : Z) (thread_name_prefix : string) : M nat :=
  make_shared (ThreadPool_new linux num_threads thread_name_prefix).

(** The calls a client can make on the registry of a workload class. *)
Inductive RegistryOp : Type :=
| OpInit (c : WorkloadClass) (num_threads : Z)
| OpSetSize (c : WorkloadClass) (num_threads : Z)
| OpGet (c : WorkloadClass) (hardware_concurrency : Z).

Definition run_op (linux : bool) (op : RegistryOp) : M unit :=
  match op with
  | OpInit c n => InitGlobalThreadPool linux c n
  | OpSetSize c n => SetGlobalThreadPoolSize linux c n
  | OpGet c hc => GetGlobalThreadPool linux c hc;; mret tt
  end.

Fixpoint run_ops (linux : bool) (ops : list RegistryOp) : M unit :=
  match ops with
  | [] => mret tt
  | op :: rest => run_op linux op;; run_ops linux rest
  end.

(** The pools of the heap whose workers carry the name of a workload class:
    the instances constructed for that class. *)
Definition is_pool_of (c : WorkloadClass) (p : ThreadPool) : bool :=
  bool_decide (name_prefix p = class_prefix c).

Definition count_pools (c : WorkloadClass) (h : list ThreadPool) : nat :=
  length (filter (λ p, is_pool_of c p = true) h).

Definition pools_of (c : WorkloadClass) (s : State) : nat := count_pools c (heap s).

(** Each class has constructed a pool exactly when its static is set, and
    the static then owns that pool. *)
Definition registry_inv (s : State) : Prop :=
  ∀ c, match global_pool c s with
       | None => pools_of c s = 0%nat
       | Some a => pools_of c s = 1%nat ∧
                   ∃ p, heap s !! a = Some p ∧ name_prefix p = class_prefix c
       end.

(** What one call on the registry keeps: the invariant, and every static that
    is set. *)
Definition keeps (s s' : State) : Prop :=
  registry_inv s' ∧ ∀ c a, global_pool c s = Some a → global_pool c s' = Some a.

(** The prior budget in the words of the specification: the configured size
    of the build pool if the build pool exists, otherwise the current
    setting of the nested runtime. *)
Definition spec_prior_budget (s : State) : option Z :=
  match build_pool_ s with
  | Some a => size <$> heap s !! a
  | None => Some (omp_nthreads s)
  end.

(** ** The registry under interleaving

    Threads of one process call the registry concurrently.  Each access to a
    static, to the heap, to a mutex or to the log is one atomic step, and the
    steps of the threads interleave in any order (sequential consistency is
    assumed for the unlocked test of the static).  The program counters
    follow the statements of [InitGlobal*ThreadPool],
    [SetGlobal*ThreadPoolSize] and [GetGlobal*ThreadPool]. *)

Module Interleaved.

(** Where a thread stands inside [InitGlobal*ThreadPool]. *)
Inductive InitPhase : Type :=
| AtGuard                 (* if (num_threads <= 0) *)
| AtOuterTest             (* if (pool_ == nullptr), outside the lock *)
| AtLock                  (* std::lock_guard lock(mutex_) *)
| AtInnerTest             (* if (pool_ == nullptr), under the lock *)
| AtMakeShared            (* std::make_shared<ThreadPool>(...) *)
| AtAssign (a : nat)      (* pool_ = the new pointer *)
| AtLogInit               (* LOG_KNOWHERE_INFO_ << "Init global ..." *)
| AtUnlock                (* the lock guard goes out of scope *)
| AtLogAlready.           (* the else branch of the outer test *)

(** Where [InitGlobal*ThreadPool] returns to. *)
Inductive Caller : Type := ToClient | ToGet.

Inductive PC : Type :=
| Idle
| Init (c : WorkloadClass) (n : Z) (ph : InitPhase) (ret : Caller)
| SetTest (c : WorkloadClass) (n : Z)
| SetResize (c : WorkloadClass) (n : Z)
| SetLog (c : WorkloadClass)
| GetTest (c : WorkloadClass) (hc : Z)
| GetReturn (c : WorkloadClass).

(** A thread: its program counter, the calls it has yet to make and the
    pointers its calls of [GetGlobal*ThreadPool] have returned. *)
Record Thread : Type := mkThread {
  pc : PC;
  todo : list RegistryOp;
  got : list ptr
}.

Record Process : Type := mkProcess {
  mem : State;
  build_pool_mutex_ : bool;       (* true: locked *)
  search_pool_mutex_ : bool;
  threads : list Thread
}.

Definition mutex (c : WorkloadClass) (σ : Process) : bool :=
  match c with
  | Build => build_pool_mutex_ σ
  | Search => search_pool_mutex_ σ
  end.

Definition with_mutex (c : WorkloadClass) (b : bool) (σ : Process) : Process :=
  match c with
  | Build =>
      {| mem := mem σ; build_pool_mutex_ := b;
         search_pool_mutex_ := search_pool_mutex_ σ; threads := threads σ |}
  | Search =>
      {| mem := mem σ; build_pool_mutex_ := build_pool_mutex_ σ;
         search_pool_mutex_ := b; threads := threads σ |}
  end.

Definition with_mem (m : State) (σ : Process) : Process :=
  {| mem := m; build_pool_mutex_ := build_pool_mutex_ σ;
     search_pool_mutex_ := search_pool_mutex_ σ; threads := threads σ |}.

Definition with_thread (i : nat) (t : Thread) (σ : Process) : Process :=
  {| mem := mem σ; build_pool_mutex_ := build_pool_mutex_ σ;
     search_pool_mutex_ := search_pool_mutex_ σ;
     threads := <[i := t]> (threads σ) |}.

Definition goto (pc' : PC) (t : Thread) : Thread :=
  {| pc := pc'; todo := todo t; got := got t |}.

Definition entry (op : RegistryOp) : PC :=
  match op with
  | OpInit c n => Init c n AtGuard ToClient
  | OpSetSize c n => SetTest c n
  | OpGet c hc => GetTest c hc
  end.

Definition after_init (ret : Caller) (c : WorkloadClass) : PC :=
  match ret with
  | ToClient => Idle
  | ToGet => GetReturn c
  end.

(** One atomic action of the unit on the shared memory. *)
Definition on_mem {A : Type} (m : M A) (σ : Process) : option (A * Process) :=
  match m (mem σ) with
  | Some (x, m') => Some (x, with_mem m' σ)
  | None => None
  end.

(** [a->size()] streamed into the log under [text]. *)
Definition log_size (text : string) (a : nat) : M unit :=
  sz ← ThreadPool_size a; LOG_KNOWHERE_INFO_ text (Some sz).

(** One step of the thread [t]: the thread after the step and the process
    it leaves, or [None] where the thread cannot step (it has returned from
    its last call, or it waits for a mutex). *)
Definition thread_step (linux : bool) (t : Thread) (σ : Process)
  : option (Thread * Process) :=
  match pc t with
  | Idle =>
      match todo t with
      | [] => None
      | op :: rest => Some ({| pc := entry op; todo := rest; got := got t |}, σ)
      end
  | Init c n AtGuard ret =>
      if n <=? 0 then
        '(_, σ') ← on_mem (LOG_KNOWHERE_ERROR_ "num_threads should be bigger than 0" None) σ;
        Some (goto (after_init ret c) t, σ')
      else Some (goto (Init c n AtOuterTest ret) t, σ)
  | Init c n AtOuterTest ret =>
      match global_pool c (mem σ) with
      | None => Some (goto (Init c n AtLock ret) t, σ)
      | Some _ => Some (goto (Init c n AtLogAlready ret) t, σ)
      end
  | Init c n AtLock ret =>
      if mutex c σ then None
      else Some (goto (Init c n AtInnerTest ret) t, with_mutex c true σ)
  | Init c n AtInnerTest ret =>
      match global_pool c (mem σ) with
      | None => Some (goto (Init c n AtMakeShared ret) t, σ)
      | Some _ => Some (goto (Init c n AtUnlock ret) t, σ)
      end
  | Init c n AtMakeShared ret =>
      '(a, σ') ← on_mem (make_shared (ThreadPool_new linux n (class_prefix c))) σ;
      Some (goto (Init c n (AtAssign a) ret) t, σ')
  | Init c n (AtAssign a) ret =>
      '(_, σ') ← on_mem (write_global_pool c (Some a)) σ;
      Some (goto (Init c n AtLogInit ret) t, σ')
  | Init c n AtLogInit ret =>
      '(_, σ') ← on_mem (LOG_KNOWHERE_INFO_ (msg_init c) (Some n)) σ;
      Some (goto (Init c n AtUnlock ret) t, σ')
  | Init c n AtUnlock ret =>
      Some (goto (after_init ret c) t, with_mutex c false σ)
  | Init c n AtLogAlready ret =>
      a ← global_pool c (mem σ);
      '(_, σ') ← on_mem (log_size (msg_already_initialized c) a) σ;
      Some (goto (after_init ret c) t, σ')
  | SetTest c n =>
      match global_pool c (mem σ) with
      | None => Some (goto (Init c n AtGuard ToClient) t, σ)
      | Some _ => Some (goto (SetResize c n) t, σ)
      end
  | SetResize c n =>
      a ← global_pool c (mem σ);
      '(_, σ') ← on_mem (SetNumThreads a n) σ;
      Some (goto (SetLog c) t, σ')
  | SetLog c =>
      a ← global_pool c (mem σ);
      '(_, σ') ← on_mem (log_size (msg_already_set c) a) σ;
      Some (goto Idle t, σ')
  | GetTest c hc =>
      match global_pool c (mem σ) with
      | None => Some (goto (Init c hc AtGuard ToGet) t, σ)
      | Some _ => Some (goto (GetReturn c) t, σ)
      end
  | GetReturn c =>
      Some ({| pc := Idle; todo := todo t; got := got t ++ [global_pool c (mem σ)] |}, σ)
  end.

(** The scheduler lets thread [i] take a step. *)
Definition step (linux : bool) (i : nat) (σ : Process) : option Process :=
  t ← threads σ !! i;
  '(t', σ') ← thread_step linux t σ;
  Some (with_thread i t' σ').

(** A schedule names the thread to run at each step; a thread that cannot
    step leaves the process as it is. *)
Fixpoint run (linux : bool) (schedule : list nat) (σ : Process) : Process :=
  match schedule with
  | [] => σ
  | i :: rest => run linux rest (default σ (step linux i σ))
  end.

(** The process at its start: no pool, both mutexes free, every thread
    about to make the first call of its program. *)
Definition start (omp : Z) (programs : list (list RegistryOp)) : Process :=
  {| mem := initial_state omp;
     build_pool_mutex_ := false; search_pool_mutex_ := false;
     threads := (λ ops, {| pc := Idle; todo := ops; got := [] |}) <$> programs |}.

(** Whether a thread is inside the region guarded by the mutex of [c], and
    whether it has constructed a pool of [c] that it has not assigned yet. *)
Definition holds (c : WorkloadClass) (t : Thread) : bool :=
  match pc t with
  | Init c' _ (AtInnerTest | AtMakeShared | AtAssign _ | AtLogInit | AtUnlock) _ =>
      bool_decide (c' = c)
  | _ => false
  end.

Definition assigning (c : WorkloadClass) (t : Thread) : bool :=
  match pc t with
  | Init c' _ (AtAssign _) _ => bool_decide (c' = c)
  | _ => false
  end.

Definition constructing (c : WorkloadClass) (t : Thread) : bool :=
  match pc t with
  | Init c' _ (AtMakeShared | AtAssign _) _ => bool_decide (c' = c)
  | _ => false
  end.

(** Whether a thread is about to dereference the static of [c]. *)
Definition expects (c : WorkloadClass) (t : Thread) : bool :=
  match pc t with
  | Init c' _ AtLogAlready _ | SetResize c' _ | SetLog c' => bool_decide (c' = c)
  | _ => false
  end.

Definition count (f : Thread → bool) (ts : list Thread) : nat :=
  length (filter (λ t, f t = true) ts).

Definition indicator (b : bool) : nat := if b then 1%nat else 0%nat.

(** The invariant of the double-checked locking, per class: the mutex is
    held by exactly the threads inside the guarded region; a thread that
    constructs or is about to assign sees the static unset, a thread about
    to dereference the static sees it set; the pools of
    the class are the one the static owns and those waiting to be
    assigned; the static, and a pointer about to be assigned, own a pool of
    the class. *)
Record inv_at (c : WorkloadClass) (σ : Process) : Prop := mkInv {
  inv_mutex : count (holds c) (threads σ) = indicator (mutex c σ);
  inv_unset : ∀ i t, threads σ !! i = Some t → constructing c t = true →
                     global_pool c (mem σ) = None;
  inv_set : ∀ i t, threads σ !! i = Some t → expects c t = true →
                   is_Some (global_pool c (mem σ));
  inv_pools : pools_of c (mem σ) =
                (indicator (bool_decide (is_Some (global_pool c (mem σ))))
                 + count (assigning c) (threads σ))%nat;
  inv_owned : ∀ a, global_pool c (mem σ) = Some a →
                   ∃ p, heap (mem σ) !! a = Some p ∧ name_prefix p = class_prefix c;
  inv_fresh : ∀ i t n a ret, threads σ !! i = Some t → pc t = Init c n (AtAssign a) ret →
                             ∃ p, heap (mem σ) !! a = Some p ∧ name_prefix p = class_prefix c
}.

Definition inv (σ : Process) : Prop := ∀ c, inv_at c σ.

(** The static of a class, once set, stays as it is. *)
Definition static_kept (c : WorkloadClass) (m m' : State) : Prop :=
  ∀ a, global_pool c m = Some a → global_pool c m' = Some a.

(** A heap that keeps the objects of another, up to a resize in place. *)
Definition heap_extends (h h' : list ThreadPool) : Prop :=
  ∀ a p, h !! a = Some p → ∃ p', h' !! a = Some p' ∧ name_prefix p' = name_prefix p.

End Interleaved.

(** The two diagnostics of an invalid thread count. *)
Definition msg_zero_threads : LogEntry :=
  mkLog ERROR "set number of threads can not be 0" None.

Definition msg_not_positive : LogEntry :=
  mkLog ERROR "num_threads should be bigger than 0" None.

(** The workload class a call on the registry is about. *)
Definition op_class (op : RegistryOp) : WorkloadClass :=
  match op with
  | OpInit c _ => c
  | OpSetSize c _ => c
  | OpGet c _ => c
  end.

(** ** The thread factory of the pool on Linux *)

Section LowPriorityThreadFactory.

(** What the operating system answers to the factory: the value of
    [setpriority(which, who, prio)], the id of the calling thread and the
    text of [std::strerror(errno)] after the call. *)
Variable setpriority : Z → Z → Z → Z.
Variable gettid : Z.
Variable strerror_errno : string.

Definition PRIO_PROCESS : Z := 0.

(** The function that [LowPriorityThreadFactory::newThread] hands to
    [folly::NamedThreadFactory::newThread], run by the new thread: it asks
    for the priority 19, logs the outcome and runs the worker function. *)
Definition newThread_func {A : Type} (func : M A) : M A :=
  (if bool_decide (setpriority PRIO_PROCESS gettid 19 ≠ 0) then
     LOG_KNOWHERE_ERROR_
       ("Failed to set priority of knowhere thread. Error is: " +:+ strerror_errno) None
   else
     LOG_KNOWHERE_INFO_ "Successfully set priority of knowhere thread." None);;
  func.

End LowPriorityThreadFactory.

(** ** Threads of the interleaved process *)

(** A thread that has returned from the last call of its program, a thread
    that waits for the mutex of a class, and a thread that can take a step. *)
Definition finished (t : Interleaved.Thread) : Prop :=
  Interleaved.pc t = Interleaved.Idle ∧ Interleaved.todo t = [].

Definition waits_for (c : WorkloadClass) (t : Interleaved.Thread) : Prop :=
  ∃ n ret, Interleaved.pc t = Interleaved.Init c n Interleaved.AtLock ret.

Definition can_step (linux : bool) (t : Interleaved.Thread) (σ : Interleaved.Process) : Prop :=
  is_Some (Interleaved.thread_step linux t σ).

(** The processes a schedule can reach from the start. *)
Definition reachable (linux : bool) (σ : Interleaved.Process) : Prop :=
  ∃ omp programs schedule,
    σ = Interleaved.run linux schedule (Interleaved.start omp programs).

(** Programs whose calls of the getter are given a hardware concurrency of
    at least 1. *)
Definition positive_gets (ops : list RegistryOp) : Prop :=
  Forall (λ op, match op with OpGet _ hc => 0 < hc | _ => True end) ops.

(** A pointer that is not null and is the static of a class. *)
Definition returned_static (m : State) (p : ptr) : Prop :=
  ∃ c a, p = Some a ∧ global_pool c m = Some a.

(** What holds of a thread of such a program: the getter runs init with a
    positive count, the static is set where init is about to return to the
    getter, and the getter has returned and will return non-null statics. *)
Definition thread_ok (m : State) (t : Interleaved.Thread) : Prop :=
  positive_gets (Interleaved.todo t) ∧
  Forall (returned_static m) (Interleaved.got t) ∧
  match Interleaved.pc t with
  | Interleaved.GetTest c hc => 0 < hc
  | Interleaved.Init c n ph Interleaved.ToGet =>
      0 < n ∧
      match ph with
      | Interleaved.AtLogInit | Interleaved.AtUnlock | Interleaved.AtLogAlready =>
          is_Some (global_pool c m)
      | _ => True
      end
  | Interleaved.GetReturn c => is_Some (global_pool c m)
  | _ => True
  end.

(** The objects of the heap stay where they are, with their workers' name
    and their queue. *)
Definition pools_kept (s s' : State) : Prop :=
  ∀ a p, heap s !! a = Some p →
         ∃ p', heap s' !! a = Some p' ∧
               name_prefix p' = name_prefix p ∧
               queue_capacity p' = queue_capacity p.

(** The other class: its static and the pool that static owns are untouched. *)
Definition class_untouched (c : WorkloadClass) (s s' : State) : Prop :=
  global_pool c s' = global_pool c s ∧
  ∀ a, global_pool c s = Some a → heap s' !! a = heap s !! a.

Definition leaves_alone (c : WorkloadClass) (s s' : State) : Prop :=
  omp_nthreads s' = omp_nthreads s ∧
  log s `prefix_of` log s' ∧
  pools_kept s s' ∧
  ∀ c', c' ≠ c → class_untouched c' s s'.

(** The budget a setter constructed with [n] sets, given the prior it recorded. *)
Definition budget_set (n prior : Z) : Z := if n <=? 0 then prior else n.

(** What the call does after a batch that gave [o]: it goes on to the next
    batch only after success. *)
Definition and_then (o : Outcome) (next : Outcome) : Outcome :=
  match o with
  | Return success => next
  | _ => o
  end.

(** A handle the loop steps over. *)
Definition passing {T : Type} `{FutureValue T} (f : Future T) : Prop :=
  ∃ v, completion f = Value v ∧ passes v.

(** Every thread of the process is as [thread_ok] says. *)
Definition all_ok (σ : Interleaved.Process) : Prop :=
  ∀ i t, Interleaved.threads σ !! i = Some t → thread_ok (Interleaved.mem σ) t.

(** Two threads that both ran init on the build class as far as the mutex:
    the second has taken it, the first waits for it. *)
Definition race_process : Interleaved.Process :=
  Interleaved.run true [0; 0; 0; 1; 1; 1; 1]%nat
    (Interleaved.start 8 [[OpInit Build 4]; [OpInit Build 7]]).

(** A process of one thread, about to run [ops] on the memory [s], both
    mutexes free. *)
Definition alone (s : State) (ops : list RegistryOp) (g : list ptr) : Interleaved.Process :=
  {| Interleaved.mem := s;
     Interleaved.build_pool_mutex_ := false;
     Interleaved.search_pool_mutex_ := false;
     Interleaved.threads :=
       [{| Interleaved.pc := Interleaved.Idle; Interleaved.todo := ops;
           Interleaved.got := g |}] |}.

(** The same process with its thread at the program counter [p]. *)
Definition at_pc (s : State) (p : Interleaved.PC) (rest : list RegistryOp) (g : list ptr)
  : Interleaved.Process :=
  {| Interleaved.mem := s;
     Interleaved.build_pool_mutex_ := false;
     Interleaved.search_pool_mutex_ := false;
     Interleaved.threads :=
       [{| Interleaved.pc := p; Interleaved.todo := rest; Interleaved.got := g |}] |}.

(** * Properties *)

(** ** Integer conversions *)

Lemma to_size_t_id z : 0 <= z < 2 ^ 64 → Int.to_size_t z = z.
Proof. intros Hz. unfold Int.to_size_t. by rewrite Z.mod_small. Qed.

Lemma to_size_t_uint32 z : Int.is_uint32 z → Int.to_size_t z = z.
Proof. unfold Int.is_uint32. intros Hz. apply to_size_t_id. lia. Qed.

Lemma to_int32_id z : Int.is_int32 z → Int.to_int32 z = z.
Proof.
  unfold Int.is_int32, Int.to_int32. intros Hz.
  rewrite Z.mod_small; lia.
Qed.

Lemma to_int32_high z : 2 ^ 31 <= z < 2 ^ 32 → Int.to_int32 z = z - 2 ^ 32.
Proof.
  unfold Int.to_int32. intros Hz.
  replace (z + 2 ^ 31) with ((z - 2 ^ 31) + 1 * 2 ^ 32) by lia.
  rewrite Z_mod_plus_full, Z.mod_small; lia.
Qed.

Lemma to_uint32_negative z : - 2 ^ 31 <= z < 0 → Int.to_uint32 z = z + 2 ^ 32.
Proof.
  unfold Int.to_uint32. intros Hz.
  replace z with ((z + 2 ^ 32) + (-1) * 2 ^ 32) at 1 by lia.
  rewrite Z_mod_plus_full, Z.mod_small; lia.
Qed.

Lemma to_uint32_range z : Int.is_uint32 (Int.to_uint32 z).
Proof. unfold Int.is_uint32, Int.to_uint32. apply Z.mod_pos_bound. lia. Qed.

(** ** The constructor and [size()] *)

Lemma ThreadPool_new_numThreads linux n prefix :
  Int.is_uint32 n → numThreads (pool_ (ThreadPool_new linux n prefix)) = n.
Proof. intros Hn. cbn. by apply to_size_t_uint32. Qed.

Lemma ThreadPool_new_capacity linux n prefix :
  Int.is_uint32 n →
  queue_capacity (ThreadPool_new linux n prefix) = n * kTaskQueueFactor.
Proof.
  unfold Int.is_uint32, queue_capacity, kTaskQueueFactor. intros Hn. cbn.
  apply to_size_t_id. lia.
Qed.

Lemma ThreadPool_new_prefix linux n prefix :
  name_prefix (ThreadPool_new linux n prefix) = prefix.
Proof. by destruct linux. Qed.

Lemma ThreadPool_new_size linux n prefix :
  0 <= n <= Int.INT32_MAX → size (ThreadPool_new linux n prefix) = n.
Proof.
  unfold Int.INT32_MAX. intros Hn. unfold size.
  rewrite ThreadPool_new_numThreads by (unfold Int.is_uint32; lia).
  apply to_int32_id. unfold Int.is_int32. lia.
Qed.

(** ** Running the monad *)

Ltac unfold_M :=
  unfold mbind, mret, M_bind, M_ret,
    LOG_KNOWHERE_INFO_, LOG_KNOWHERE_ERROR_, LOG_KNOWHERE,
    make_shared, deref, store, read_global_pool, write_global_pool,
    omp_get_max_threads, omp_set_num_threads.

Lemma global_pool_with_log c e s : global_pool c (with_log e s) = global_pool c s.
Proof. by destruct c. Qed.

Lemma global_pool_with_heap c h s : global_pool c (with_heap h s) = global_pool c s.
Proof. by destruct c. Qed.

Lemma global_pool_with_omp c n s : global_pool c (with_omp n s) = global_pool c s.
Proof. by destruct c. Qed.

Lemma global_pool_with_global_pool c c' a s :
  global_pool c (with_global_pool c' a s) = if decide (c = c') then a else global_pool c s.
Proof. by destruct c, c'. Qed.

Lemma heap_with_global_pool c a s : heap (with_global_pool c a s) = heap s.
Proof. by destruct c. Qed.

Lemma log_with_global_pool c a s : log (with_global_pool c a s) = log s.
Proof. by destruct c. Qed.

Lemma omp_with_global_pool c a s : omp_nthreads (with_global_pool c a s) = omp_nthreads s.
Proof. by destruct c. Qed.

(** ** Equations of the member functions *)

Lemma ThreadPool_size_owned a p s :
  heap s !! a = Some p → ThreadPool_size a s = Some (size p, s).
Proof. intros Hp. unfold ThreadPool_size. unfold_M. by rewrite Hp. Qed.

Lemma SetNumThreads_zero a s :
  SetNumThreads a 0 s = Some (tt, with_log msg_zero_threads s).
Proof. reflexivity. Qed.

Lemma SetNumThreads_nonzero a n p s :
  n ≠ 0 → heap s !! a = Some p →
  SetNumThreads a n s =
    Some (tt, with_heap (<[a := {| pool_ := setNumThreads (Int.to_size_t n) (pool_ p) |}]> (heap s)) s).
Proof.
  intros Hn Hp. unfold SetNumThreads.
  destruct (Z.eqb_spec n 0) as [|_]; [done|].
  unfold_M. by rewrite Hp.
Qed.

Section RegistryEquations.

Variable linux : bool.

Lemma InitGlobalThreadPool_rejected c n s :
  n <= 0 → InitGlobalThreadPool linux c n s = Some (tt, with_log msg_not_positive s).
Proof.
  intros Hn. unfold InitGlobalThreadPool.
  destruct (Z.leb_spec n 0); [reflexivity | lia].
Qed.

Lemma InitGlobalThreadPool_unset c n s :
  0 < n → global_pool c s = None →
  InitGlobalThreadPool linux c n s =
    Some (tt, with_log (mkLog INFO (msg_init c) (Some n))
                (with_global_pool c (Some (length (heap s)))
                   (with_heap (heap s ++ [ThreadPool_new linux n (class_prefix c)]) s))).
Proof.
  intros Hn Hc. unfold InitGlobalThreadPool.
  destruct (Z.leb_spec n 0); [lia|].
  unfold_M. by rewrite !Hc.
Qed.

Lemma InitGlobalThreadPool_set c n a p s :
  0 < n → global_pool c s = Some a → heap s !! a = Some p →
  InitGlobalThreadPool linux c n s =
    Some (tt, with_log (mkLog INFO (msg_already_initialized c) (Some (size p))) s).
Proof.
  intros Hn Hc Hp. unfold InitGlobalThreadPool.
  destruct (Z.leb_spec n 0); [lia|].
  unfold mbind, M_bind, read_global_pool. rewrite Hc.
  by rewrite (ThreadPool_size_owned a p).
Qed.

Lemma SetGlobalThreadPoolSize_unset c n s :
  global_pool c s = None →
  SetGlobalThreadPoolSize linux c n s = InitGlobalThreadPool linux c n s.
Proof.
  intros Hc. unfold SetGlobalThreadPoolSize, mbind, M_bind, read_global_pool.
  by rewrite Hc.
Qed.

Lemma SetGlobalThreadPoolSize_set_zero c a p s :
  global_pool c s = Some a → heap s !! a = Some p →
  SetGlobalThreadPoolSize linux c 0 s =
    Some (tt, with_log (mkLog INFO (msg_already_set c) (Some (size p)))
                (with_log msg_zero_threads s)).
Proof.
  intros Hc Hp. unfold SetGlobalThreadPoolSize, mbind, M_bind, read_global_pool.
  rewrite Hc, SetNumThreads_zero.
  by rewrite (ThreadPool_size_owned a p).
Qed.

Lemma SetGlobalThreadPoolSize_set c n a p s :
  n ≠ 0 → global_pool c s = Some a → heap s !! a = Some p →
  let p' := {| pool_ := setNumThreads (Int.to_size_t n) (pool_ p) |} in
  SetGlobalThreadPoolSize linux c n s =
    Some (tt, with_log (mkLog INFO (msg_already_set c) (Some (size p')))
                (with_heap (<[a := p']> (heap s)) s)).
Proof.
  intros Hn Hc Hp p'. unfold SetGlobalThreadPoolSize, mbind, M_bind, read_global_pool.
  rewrite Hc, (SetNumThreads_nonzero a n p) by done.
  rewrite (ThreadPool_size_owned a p'); [done|].
  cbn. apply list_lookup_insert_eq. by eapply lookup_lt_Some.
Qed.

Lemma GetGlobalThreadPool_set c hc a s :
  global_pool c s = Some a →
  GetGlobalThreadPool linux c hc s = Some (Some a, s).
Proof.
  intros Hc. unfold GetGlobalThreadPool. unfold_M. by rewrite Hc, Hc.
Qed.

Lemma GetGlobalThreadPool_unset c hc s :
  global_pool c s = None →
  GetGlobalThreadPool linux c hc s =
    match InitGlobalThreadPool linux c hc s with
    | Some (_, s') => Some (global_pool c s', s')
    | None => None
    end.
Proof.
  intros Hc. unfold GetGlobalThreadPool.
  unfold mbind at 1 2. unfold M_bind, read_global_pool. by rewrite Hc.
Qed.

End RegistryEquations.

(** ** Construction *)

(** C7, as amended.  For every thread count [n] from 1 to [INT32_MAX] and
    every name prefix, the constructed pool answers [size()] with [n], its
    task queue is constructed with capacity exactly [n * 16], and its workers
    carry the prefix. *)
Theorem ThreadPool_new_size_capacity (linux : bool) (n : Z) (prefix : string) :
  0 < n <= Int.INT32_MAX →
  size (ThreadPool_new linux n prefix) = n ∧
  queue_capacity (ThreadPool_new linux n prefix) = n * 16 ∧
  name_prefix (ThreadPool_new linux n prefix) = prefix.
Proof.
  intros Hn. split; [apply ThreadPool_new_size; lia|]. split.
  - apply ThreadPool_new_capacity. unfold Int.is_uint32, Int.INT32_MAX in *. lia.
  - apply ThreadPool_new_prefix.
Qed.

Lemma ThreadPool_new_size_capacity_witness :
  size (ThreadPool_new true 8 "knowhere_build") = 8 ∧
  queue_capacity (ThreadPool_new true 8 "knowhere_build") = 8 * 16 ∧
  name_prefix (ThreadPool_new true 8 "knowhere_build") = "knowhere_build".
Proof.
  apply (ThreadPool_new_size_capacity true 8 "knowhere_build").
  unfold Int.INT32_MAX. lia.
Defined.

(** C7, as stated, fails at the thread count [2^31], a positive [uint32_t]:
    [size()] answers in [int32_t]. *)
Lemma ThreadPool_new_size_counterexample :
  Int.is_uint32 (2 ^ 31) ∧ 0 < 2 ^ 31 ∧
  size (ThreadPool_new true (2 ^ 31) "knowhere_build") = - 2 ^ 31 ∧
  size (ThreadPool_new true (2 ^ 31) "knowhere_build") ≠ 2 ^ 31.
Proof. unfold Int.is_uint32. repeat split; (lia || done). Qed.

(** C3, as amended.  The constructor does not validate its thread count: for
    a count of zero it logs nothing and hands the executor zero threads and a
    queue of capacity zero.  The diagnostic and the no-op are those of the
    registry: [InitGlobal*ThreadPool(0)] adds one error line to the log and
    changes nothing else, the static of the class included. *)
Theorem zero_threads_construct_and_init (linux : bool) (c : WorkloadClass)
    (prefix : string) (s : State) :
  (∃ s', construct linux 0 prefix s = Some (length (heap s), s') ∧
         log s' = log s ∧
         heap s' = heap s ++ [ThreadPool_new linux 0 prefix] ∧
         numThreads (pool_ (ThreadPool_new linux 0 prefix)) = 0 ∧
         queue_capacity (ThreadPool_new linux 0 prefix) = 0) ∧
  InitGlobalThreadPool linux c 0 s = Some (tt, with_log msg_not_positive s) ∧
  global_pool c (with_log msg_not_positive s) = global_pool c s ∧
  heap (with_log msg_not_positive s) = heap s.
Proof.
  split; [|split; [|split]].
  - eexists. split; [reflexivity|]. by cbn.
  - by apply InitGlobalThreadPool_rejected.
  - apply global_pool_with_log.
  - reflexivity.
Qed.

(** C3, as stated, fails: constructing a pool with a thread count of zero
    logs no diagnostic and is not a no-op, a pool object comes to exist. *)
Lemma construct_zero_counterexample :
  ∃ s', construct true 0 "knowhere_build" (initial_state 8) = Some (0%nat, s') ∧
        log s' = [] ∧
        heap s' ≠ heap (initial_state 8) ∧
        (numThreads ∘ pool_) <$> heap s' = [0].
Proof. eexists. split; [reflexivity|]. by cbn. Qed.

(** ** Resizing *)

(** C8.  On every state and for every pool, [SetNumThreads(0)] adds the
    diagnostic to the log and changes nothing else: the heap, the statics and
    the thread budget stay as they were, and [size()] answers as before. *)
Theorem SetNumThreads_zero_no_mutation (a : nat) (s : State) :
  ∃ s', SetNumThreads a 0 s = Some (tt, s') ∧
        log s' = log s ++ [msg_zero_threads] ∧
        log_level msg_zero_threads = ERROR ∧
        heap s' = heap s ∧
        build_pool_ s' = build_pool_ s ∧
        search_pool_ s' = search_pool_ s ∧
        omp_nthreads s' = omp_nthreads s ∧
        fst <$> ThreadPool_size a s' = fst <$> ThreadPool_size a s.
Proof.
  exists (with_log msg_zero_threads s).
  split; [apply SetNumThreads_zero|]. repeat split.
  unfold ThreadPool_size. unfold_M. cbn [heap with_log].
  by destruct (heap s !! a).
Qed.

(** C9.  The thread counts of the registry's init and of [SetNumThreads] are
    [uint32_t], and of those values the guards reject zero alone: for every
    count from 1 to [2^32 - 1], a negative [int] converted to the parameter
    type among them, init on an unset class constructs a pool with that many
    threads and [SetNumThreads] resizes to it. *)
Theorem guards_reject_exactly_zero (linux : bool) (n : Z) :
  Int.is_uint32 n →
  (∀ c s, global_pool c s = None →
     ∃ s', InitGlobalThreadPool linux c n s = Some (tt, s') ∧
           (n = 0 → s' = with_log msg_not_positive s) ∧
           (n ≠ 0 → ∃ p, global_pool c s' = Some (length (heap s)) ∧
                         heap s' = heap s ++ [p] ∧
                         numThreads (pool_ p) = n ∧
                         name_prefix p = class_prefix c)) ∧
  (∀ a p s, heap s !! a = Some p →
     ∃ s', SetNumThreads a n s = Some (tt, s') ∧
           (n = 0 → s' = with_log msg_zero_threads s) ∧
           (n ≠ 0 → ∃ p', heap s' = <[a := p']> (heap s) ∧
                          heap s' !! a = Some p' ∧
                          numThreads (pool_ p') = n ∧
                          log s' = log s)) ∧
  (∀ z, - 2 ^ 31 <= z < 0 → n = Int.to_uint32 z → n = z + 2 ^ 32 ∧ n ≠ 0).
Proof.
  intros Hn. split; [|split].
  - intros c s Hc. destruct (decide (n = 0)) as [->|Hn0].
    + eexists. split; [by apply InitGlobalThreadPool_rejected|]. done.
    + unfold Int.is_uint32 in Hn.
      eexists. split; [apply InitGlobalThreadPool_unset; [lia|done]|].
      split; [done|]. intros _. eexists.
      rewrite global_pool_with_log, global_pool_with_global_pool.
      rewrite decide_True by done. split; [done|].
      cbn [heap with_log]. rewrite heap_with_global_pool. split; [done|].
      split; [|apply ThreadPool_new_prefix].
      apply ThreadPool_new_numThreads. unfold Int.is_uint32. lia.
  - intros a p s Hp. destruct (decide (n = 0)) as [->|Hn0].
    + eexists. split; [apply SetNumThreads_zero|]. done.
    + eexists. split; [by apply (SetNumThreads_nonzero a n p)|].
      split; [done|]. intros _. eexists. split; [reflexivity|].
      split; [|split; [|done]].
      * cbn. apply list_lookup_insert_eq. by eapply lookup_lt_Some.
      * cbn. by apply to_size_t_uint32.
  - intros z Hz ->. rewrite to_uint32_negative by done. lia.
Qed.

Lemma guards_reject_exactly_zero_witness :
  (∃ s', InitGlobalThreadPool true Build (2 ^ 32 - 1) (initial_state 8) = Some (tt, s') ∧
         (numThreads ∘ pool_) <$> heap s' = [2 ^ 32 - 1]) ∧
  Int.to_uint32 (-1) = 2 ^ 32 - 1.
Proof.
  assert (Hn : Int.is_uint32 (2 ^ 32 - 1)) by (unfold Int.is_uint32; lia).
  destruct (guards_reject_exactly_zero true (2 ^ 32 - 1) Hn) as (Hinit & _ & Hneg).
  split.
  - destruct (Hinit Build (initial_state 8) eq_refl) as (s' & Hrun & _ & Hs').
    exists s'. split; [exact Hrun|].
    destruct Hs' as (p & _ & -> & Hp & _); [lia|]. cbn. by rewrite <- Hp.
  - by vm_compute.
Defined.

(** ** The getter *)

(** C2, as amended.  On a class whose static is unset, and for every detected
    hardware concurrency from 1 to [INT32_MAX], [GetGlobal*ThreadPool]
    returns a pointer that is not null, to a freshly constructed pool whose
    [size()] is the hardware concurrency. *)
Theorem GetGlobalThreadPool_unset_size (linux : bool) (c : WorkloadClass)
    (hardware_concurrency : Z) (s : State) :
  global_pool c s = None →
  1 <= hardware_concurrency <= Int.INT32_MAX →
  ∃ a s' p, GetGlobalThreadPool linux c hardware_concurrency s = Some (Some a, s') ∧
            global_pool c s' = Some a ∧
            heap s' !! a = Some p ∧
            size p = hardware_concurrency.
Proof.
  intros Hc Hhc. unfold Int.INT32_MAX in Hhc.
  rewrite GetGlobalThreadPool_unset by done.
  rewrite InitGlobalThreadPool_unset by (done || lia).
  rewrite global_pool_with_log, global_pool_with_global_pool, decide_True by done.
  eexists _, _, _. split; [done|].
  rewrite global_pool_with_log, global_pool_with_global_pool, decide_True by done.
  split; [done|]. cbn [heap with_log]. rewrite heap_with_global_pool. cbn [heap with_heap].
  split; [apply list_lookup_middle; done|].
  apply ThreadPool_new_size. unfold Int.INT32_MAX. lia.
Qed.

Lemma GetGlobalThreadPool_unset_size_witness :
  ∃ a s' p, GetGlobalThreadPool true Search 8 (initial_state 8) = Some (Some a, s') ∧
            global_pool Search s' = Some a ∧
            heap s' !! a = Some p ∧
            size p = 8.
Proof.
  apply (GetGlobalThreadPool_unset_size true Search 8 (initial_state 8)).
  - reflexivity.
  - unfold Int.INT32_MAX. lia.
Defined.

(** C2, as stated, fails where the hardware concurrency is not detected and
    [std::thread::hardware_concurrency()] answers 0: the init guard rejects
    the count and the getter returns the null pointer. *)
Lemma GetGlobalThreadPool_counterexample :
  global_pool Build (initial_state 8) = None ∧
  GetGlobalThreadPool true Build 0 (initial_state 8)
    = Some (None, with_log msg_not_positive (initial_state 8)).
Proof. split; reflexivity. Qed.

(** ** The scoped setter *)

Lemma ScopedOmpSetter_ctor_eq n prior s :
  spec_prior_budget s = Some prior →
  ScopedOmpSetter_ctor n s =
    Some (mkSetter prior, with_omp (if n <=? 0 then prior else n) s).
Proof.
  unfold spec_prior_budget, ScopedOmpSetter_ctor. intros Hprior.
  unfold mbind at 1. unfold M_bind at 1. unfold read_global_pool. cbn [global_pool].
  destruct (build_pool_ s) as [a|].
  - destruct (heap s !! a) as [p|] eqn:Hp; [|done].
    injection Hprior as <-. unfold mbind, M_bind.
    by rewrite (ThreadPool_size_owned a p).
  - by injection Hprior as <-.
Qed.

Lemma ScopedOmpSetter_dtor_eq g s :
  ScopedOmpSetter_dtor g s = Some (tt, with_omp (omp_before g) s).
Proof. reflexivity. Qed.

Lemma scoped_eq {A : Type} n prior (body : M A) r s s2 :
  spec_prior_budget s = Some prior →
  body (with_omp (if n <=? 0 then prior else n) s) = Some (r, s2) →
  scoped n body s = Some (r, with_omp prior s2).
Proof.
  intros Hprior Hbody. unfold scoped.
  unfold mbind at 1. unfold M_bind at 1. rewrite (ScopedOmpSetter_ctor_eq n prior) by done.
  unfold mbind at 1. unfold M_bind at 1. by rewrite Hbody.
Qed.

(** C5.  For every [n] and every positive prior, the constructor records as
    prior the configured size of the build pool if the build pool exists and
    the current budget of the nested runtime otherwise, sets the budget to
    [n] if [n] is positive and to the recorded prior otherwise (a positive
    value either way), and the destructor, on whatever state the scope has
    reached, sets the budget to the recorded prior. *)
Theorem ScopedOmpSetter_records_sets_restores (n prior : Z) (s : State) :
  spec_prior_budget s = Some prior →
  0 < prior →
  ∃ g s1, ScopedOmpSetter_ctor n s = Some (g, s1) ∧
          omp_before g = prior ∧
          s1 = with_omp (if decide (0 < n) then n else prior) s ∧
          0 < omp_nthreads s1 ∧
          (∀ s2, ScopedOmpSetter_dtor g s2 = Some (tt, with_omp prior s2)) ∧
          (∀ (A : Type) (body : M A) r s2,
             body s1 = Some (r, s2) →
             scoped n body s = Some (r, with_omp prior s2) ∧
             omp_nthreads (with_omp prior s2) = prior).
Proof.
  intros Hprior Hpos.
  assert (Hset : (if n <=? 0 then prior else n) = (if decide (0 < n) then n else prior)).
  { destruct (Z.leb_spec n 0), (decide (0 < n)); lia. }
  exists (mkSetter prior), (with_omp (if n <=? 0 then prior else n) s).
  split; [by apply ScopedOmpSetter_ctor_eq|]. split; [done|].
  split; [by rewrite Hset|].
  split; [cbn; destruct (Z.leb_spec n 0); lia|]. split; [done|].
  intros A body r s2 Hbody. split; [|done]. by apply scoped_eq.
Qed.

Lemma ScopedOmpSetter_records_sets_restores_witness :
  (∃ g s1, ScopedOmpSetter_ctor 3 (build_pool_state 4 8) = Some (g, s1) ∧
           omp_before g = 4 ∧
           s1 = with_omp 3 (build_pool_state 4 8) ∧
           0 < omp_nthreads s1 ∧
           (∀ s2, ScopedOmpSetter_dtor g s2 = Some (tt, with_omp 4 s2)) ∧
           (∀ (A : Type) (body : M A) r s2,
              body s1 = Some (r, s2) →
              scoped 3 body (build_pool_state 4 8) = Some (r, with_omp 4 s2) ∧
              omp_nthreads (with_omp 4 s2) = 4)) ∧
  (∃ g s1, ScopedOmpSetter_ctor 0 (initial_state 8) = Some (g, s1) ∧
           omp_before g = 8 ∧
           s1 = with_omp 8 (initial_state 8) ∧
           0 < omp_nthreads s1 ∧
           (∀ s2, ScopedOmpSetter_dtor g s2 = Some (tt, with_omp 8 s2)) ∧
           (∀ (A : Type) (body : M A) r s2,
              body s1 = Some (r, s2) →
              scoped 0 body (initial_state 8) = Some (r, with_omp 8 s2) ∧
              omp_nthreads (with_omp 8 s2) = 8)).
Proof.
  split.
  - apply (ScopedOmpSetter_records_sets_restores 3 4 (build_pool_state 4 8));
      [reflexivity|lia].
  - apply (ScopedOmpSetter_records_sets_restores 0 8 (initial_state 8));
      [reflexivity|lia].
Defined.

(** C10.  Where the build pool exists and its configured size, a positive
    number, differs from the current budget of the nested runtime, a setter
    constructed with [n <= 0] sets the budget to the size of the build
    pool, and for every [n] the budget after the scope is the size the
    build pool had when the setter was constructed, which is not the budget
    that was current just before. *)
Theorem ScopedOmpSetter_restores_build_pool_size (n : Z) (a : nat) (p : ThreadPool)
    (s : State) :
  build_pool_ s = Some a →
  heap s !! a = Some p →
  0 < size p →
  size p ≠ omp_nthreads s →
  ∃ g s1, ScopedOmpSetter_ctor n s = Some (g, s1) ∧
          0 < omp_nthreads s1 ∧
          (n <= 0 → omp_nthreads s1 = size p) ∧
          ∀ s2, ∃ s3, ScopedOmpSetter_dtor g s2 = Some (tt, s3) ∧
                      omp_nthreads s3 = size p ∧
                      omp_nthreads s3 ≠ omp_nthreads s.
Proof.
  intros Hb Hp Hpos Hne.
  assert (Hprior : spec_prior_budget s = Some (size p)).
  { unfold spec_prior_budget. by rewrite Hb, Hp. }
  eexists _, _. split; [by apply ScopedOmpSetter_ctor_eq|]. split; [|split].
  - cbn. destruct (Z.leb_spec n 0); lia.
  - intros Hn. cbn. by destruct (Z.leb_spec n 0); [|lia].
  - intros s2. by eexists.
Qed.

Lemma ScopedOmpSetter_restores_build_pool_size_witness :
  ∃ g s1, ScopedOmpSetter_ctor 0 (build_pool_state 4 8) = Some (g, s1) ∧
          0 < omp_nthreads s1 ∧
          (0 <= 0 → omp_nthreads s1 = 4) ∧
          ∀ s2, ∃ s3, ScopedOmpSetter_dtor g s2 = Some (tt, s3) ∧
                      omp_nthreads s3 = 4 ∧
                      omp_nthreads s3 ≠ 8.
Proof.
  apply (ScopedOmpSetter_restores_build_pool_size 0 0%nat
           (ThreadPool_new true 4 "knowhere_build") (build_pool_state 4 8)).
  - reflexivity.
  - reflexivity.
  - reflexivity.
  - vm_compute. discriminate.
Defined.

(** ** The aggregator *)

Section WaitAllSuccessFacts.

Context {T : Type} `{FutureValue T}.

Lemma WaitAllSuccess_loop_passes v rest :
  passes v → WaitAllSuccess_loop (Value v :: rest) = WaitAllSuccess_loop rest.
Proof.
  intros [Hu|Hv]; cbn.
  - by rewrite Hu.
  - by rewrite Hv, bool_decide_eq_true_2, andb_false_r.
Qed.

Lemma WaitAllSuccess_loop_skip (pre : list T) rest :
  Forall passes pre →
  WaitAllSuccess_loop ((Value <$> pre) ++ rest) = WaitAllSuccess_loop rest.
Proof.
  induction 1 as [|v pre Hv _ IH]; [done|].
  rewrite fmap_cons, <- app_comm_cons, WaitAllSuccess_loop_passes by done.
  exact IH.
Qed.

Lemma collectAll_get_app (pre post : list (Future T)) :
  collectAll_get (pre ++ post) = collectAll_get pre ++ collectAll_get post.
Proof. apply map_app. Qed.

Lemma collectAll_get_ready (vs : list T) :
  collectAll_get (ready <$> vs) = Value <$> vs.
Proof. unfold collectAll_get. induction vs; [done|]. cbn. by f_equal. Qed.

Lemma WaitAllSuccess_skip (pre : list T) (rest : list (Future T)) :
  Forall passes pre →
  WaitAllSuccess ((ready <$> pre) ++ rest) = WaitAllSuccess rest.
Proof.
  intros Hpre. unfold WaitAllSuccess.
  rewrite collectAll_get_app, collectAll_get_ready.
  by apply WaitAllSuccess_loop_skip.
Qed.

End WaitAllSuccessFacts.

(** C1, as amended.  If a handle carries a raised error and every handle
    before it carries a payload that is no non-success status, the call
    raises that error, whatever the outcomes of the handles after it. *)
Theorem WaitAllSuccess_raises_first_error {T : Type} `{FutureValue T}
    (pre : list T) (e : exception_wrapper) (post : list (Future T)) :
  Forall passes pre →
  WaitAllSuccess ((ready <$> pre) ++ failed e :: post) = Throw e.
Proof. intros Hpre. by rewrite WaitAllSuccess_skip. Qed.

Lemma WaitAllSuccess_raises_first_error_witness :
  WaitAllSuccess ((ready <$> [success; success]) ++
                  failed (mkException "bad_alloc") :: [ready (non_success 2)])
    = Throw (mkException "bad_alloc").
Proof.
  apply (WaitAllSuccess_raises_first_error [success; success]).
  repeat constructor; by right.
Defined.

(** C1, as stated, fails: a handle with a non-success status ahead of the
    handle with the raised error makes the call return that status, and
    nothing is raised. *)
Lemma WaitAllSuccess_counterexample :
  failed (mkException "bad_alloc") ∈
    [ready (non_success 1); failed (mkException "bad_alloc")] ∧
  WaitAllSuccess [ready (non_success 1); failed (mkException "bad_alloc")]
    = Return (non_success 1).
Proof. split; [|reflexivity]. apply list_elem_of_further, list_elem_of_here. Qed.

(** C4.  Over handles that all completed with a status, the call returns
    success when every status is success, the empty vector included, and
    otherwise the first status in sequence order that is not success. *)
Theorem WaitAllSuccess_first_non_success (statuses : list Status) :
  (Forall (λ st, st = success) statuses →
   WaitAllSuccess (ready <$> statuses) = Return success) ∧
  (∀ pre st post,
     statuses = pre ++ st :: post →
     Forall (λ st', st' = success) pre →
     st ≠ success →
     WaitAllSuccess (ready <$> statuses) = Return st).
Proof.
  assert (Hpass : ∀ l : list Status, Forall (λ st, st = success) l → Forall passes l).
  { intros l Hl. eapply Forall_impl; [exact Hl|]. intros st ->. by right. }
  split.
  - intros Hall. rewrite <- (app_nil_r (ready <$> statuses)).
    by rewrite WaitAllSuccess_skip by auto.
  - intros pre st post -> Hpre Hst.
    rewrite fmap_app, fmap_cons, WaitAllSuccess_skip by auto.
    unfold WaitAllSuccess. cbn. by rewrite bool_decide_eq_false_2.
Qed.

Lemma WaitAllSuccess_first_non_success_witness :
  WaitAllSuccess (T := Status) (ready <$> []) = Return success ∧
  WaitAllSuccess (ready <$> [success; non_success 3; success; non_success 5])
    = Return (non_success 3).
Proof.
  split.
  - apply (WaitAllSuccess_first_non_success []). constructor.
  - apply (WaitAllSuccess_first_non_success [success; non_success 3; success; non_success 5])
      with (pre := [success]) (post := [success; non_success 5]).
    + reflexivity.
    + repeat constructor.
    + discriminate.
Defined.

(** ** The registry on one thread of control *)

Lemma class_prefix_inj c c' : class_prefix c = class_prefix c' → c = c'.
Proof. by destruct c, c'. Qed.

Lemma is_pool_of_prefix c p c' :
  name_prefix p = class_prefix c' → is_pool_of c p = bool_decide (c = c').
Proof.
  intros Hp. unfold is_pool_of. rewrite Hp.
  apply bool_decide_ext. split; [by intros ?%class_prefix_inj | by intros ->].
Qed.

Lemma count_pools_app c h h' :
  count_pools c (h ++ h') = (count_pools c h + count_pools c h')%nat.
Proof. unfold count_pools. by rewrite filter_app, length_app. Qed.

Lemma count_pools_singleton c p :
  count_pools c [p] = if is_pool_of c p then 1%nat else 0%nat.
Proof. unfold count_pools. rewrite filter_cons. by destruct (is_pool_of c p). Qed.

Lemma count_pools_insert c h a p p' :
  h !! a = Some p → name_prefix p' = name_prefix p →
  count_pools c (<[a := p']> h) = count_pools c h.
Proof.
  intros Ha Hp. revert a Ha. induction h as [|q h IH]; intros [|a] Ha; try done.
  - cbn in Ha. injection Ha as ->. unfold count_pools. cbn [list_insert insert].
    rewrite !filter_cons. unfold is_pool_of. rewrite Hp.
    by destruct (decide _).
  - cbn in Ha. specialize (IH a Ha). unfold count_pools in *.
    change (<[S a := p']> (q :: h)) with (q :: <[a := p']> h).
    rewrite !filter_cons. destruct (decide _); cbn; by rewrite IH.
Qed.

Lemma lookup_insert_prefix (h : list ThreadPool) a p p' i q :
  h !! a = Some p → name_prefix p' = name_prefix p → h !! i = Some q →
  ∃ q', <[a := p']> h !! i = Some q' ∧ name_prefix q' = name_prefix q.
Proof.
  intros Ha Hp Hi. destruct (decide (a = i)) as [->|Hne].
  - exists p'. rewrite list_lookup_insert_eq by (by eapply lookup_lt_Some).
    split; [done|]. congruence.
  - exists q. by rewrite list_lookup_insert_ne.
Qed.

Lemma registry_inv_initial omp : registry_inv (initial_state omp).
Proof. by intros []. Qed.

Lemma registry_inv_with_log e s : registry_inv s → registry_inv (with_log e s).
Proof. intros Hinv c. rewrite global_pool_with_log. apply Hinv. Qed.

Lemma registry_inv_owned c a s :
  registry_inv s → global_pool c s = Some a →
  ∃ p, heap s !! a = Some p ∧ name_prefix p = class_prefix c.
Proof. intros Hinv Hc. specialize (Hinv c). rewrite Hc in Hinv. apply Hinv. Qed.

Lemma registry_inv_at_most_one c s : registry_inv s → (pools_of c s ≤ 1)%nat.
Proof.
  intros Hinv. specialize (Hinv c).
  destruct (global_pool c s); [destruct Hinv as [-> _]|rewrite Hinv]; lia.
Qed.

(** Constructing the pool of an unset class. *)
Lemma registry_inv_init linux c n s :
  registry_inv s → global_pool c s = None →
  registry_inv (with_global_pool c (Some (length (heap s)))
                  (with_heap (heap s ++ [ThreadPool_new linux n (class_prefix c)]) s)).
Proof.
  intros Hinv Hc c'. specialize (Hinv c').
  rewrite global_pool_with_global_pool, global_pool_with_heap.
  unfold pools_of in *. rewrite heap_with_global_pool. cbn [heap with_heap].
  rewrite count_pools_app, count_pools_singleton.
  rewrite (is_pool_of_prefix c' _ c) by apply ThreadPool_new_prefix.
  destruct (decide (c' = c)) as [->|Hne].
  - rewrite Hc in Hinv. rewrite Hinv, bool_decide_eq_true_2 by done.
    split; [done|]. eexists. split; [by apply list_lookup_middle|].
    apply ThreadPool_new_prefix.
  - rewrite bool_decide_eq_false_2 by done.
    destruct (global_pool c' s) as [a|]; [|lia].
    destruct Hinv as (-> & p & Hp & Hpre). split; [lia|].
    exists p. split; [|done]. by apply lookup_app_l_Some.
Qed.

(** Resizing a pool in place. *)
Lemma registry_inv_resize a p p' s :
  registry_inv s → heap s !! a = Some p → name_prefix p' = name_prefix p →
  registry_inv (with_heap (<[a := p']> (heap s)) s).
Proof.
  intros Hinv Ha Hp c. specialize (Hinv c).
  rewrite global_pool_with_heap. unfold pools_of in *. cbn [heap with_heap].
  rewrite (count_pools_insert c _ a p) by done.
  destruct (global_pool c s) as [i|]; [|done].
  destruct Hinv as (Hone & q & Hq & Hpre). split; [done|].
  destruct (lookup_insert_prefix _ a p p' i q Ha Hp Hq) as (q' & Hq' & Hpre').
  exists q'. split; [done|]. congruence.
Qed.

Lemma keeps_with_log e s : registry_inv s → keeps s (with_log e s).
Proof.
  intros Hinv. split; [by apply registry_inv_with_log|].
  intros c a. by rewrite global_pool_with_log.
Qed.

Lemma keeps_trans s1 s2 s3 : keeps s1 s2 → keeps s2 s3 → keeps s1 s3.
Proof. intros [_ H12] [Hinv H23]. split; [done|]. eauto. Qed.

Section RegistryTraces.

Variable linux : bool.

Lemma InitGlobalThreadPool_keeps c n s :
  registry_inv s →
  ∃ s', InitGlobalThreadPool linux c n s = Some (tt, s') ∧ keeps s s'.
Proof.
  intros Hinv. destruct (Z.leb_spec n 0) as [Hn|Hn].
  { eexists. split; [by apply InitGlobalThreadPool_rejected|]. by apply keeps_with_log. }
  destruct (global_pool c s) as [a|] eqn:Hc.
  - destruct (registry_inv_owned c a s Hinv Hc) as (p & Hp & _).
    eexists. split; [by apply (InitGlobalThreadPool_set linux c n a p)|].
    by apply keeps_with_log.
  - eexists. split; [by apply InitGlobalThreadPool_unset|]. split.
    + by apply registry_inv_with_log, registry_inv_init.
    + intros c' a' Hc'. rewrite global_pool_with_log, global_pool_with_global_pool.
      rewrite decide_False by congruence. by rewrite global_pool_with_heap.
Qed.

Lemma SetGlobalThreadPoolSize_keeps c n s :
  registry_inv s →
  ∃ s', SetGlobalThreadPoolSize linux c n s = Some (tt, s') ∧ keeps s s'.
Proof.
  intros Hinv. destruct (global_pool c s) as [a|] eqn:Hc.
  - destruct (registry_inv_owned c a s Hinv Hc) as (p & Hp & _).
    destruct (decide (n = 0)) as [->|Hn].
    + eexists. split; [by apply (SetGlobalThreadPoolSize_set_zero linux c a p)|].
      eapply keeps_trans; apply keeps_with_log; [done|].
      by apply registry_inv_with_log.
    + eexists. split; [by apply (SetGlobalThreadPoolSize_set linux c n a p)|].
      split.
      * by apply registry_inv_with_log, (registry_inv_resize a p).
      * intros c' a'. by rewrite global_pool_with_log, global_pool_with_heap.
  - rewrite SetGlobalThreadPoolSize_unset by done.
    by apply InitGlobalThreadPool_keeps.
Qed.

Lemma GetGlobalThreadPool_keeps c hc s :
  registry_inv s →
  ∃ r s', GetGlobalThreadPool linux c hc s = Some (r, s') ∧ keeps s s' ∧
          r = global_pool c s'.
Proof.
  intros Hinv. destruct (global_pool c s) as [a|] eqn:Hc.
  - eexists _, _. split; [by apply GetGlobalThreadPool_set|].
    split; [by split|done].
  - rewrite GetGlobalThreadPool_unset by done.
    destruct (InitGlobalThreadPool_keeps c hc s Hinv) as (s' & -> & Hkeep).
    by eexists _, _.
Qed.

Lemma run_op_keeps op s :
  registry_inv s → ∃ s', run_op linux op s = Some (tt, s') ∧ keeps s s'.
Proof.
  intros Hinv. destruct op as [c n|c n|c hc]; cbn [run_op].
  - by apply InitGlobalThreadPool_keeps.
  - by apply SetGlobalThreadPoolSize_keeps.
  - destruct (GetGlobalThreadPool_keeps c hc s Hinv) as (r & s' & Hrun & Hkeep & _).
    exists s'. unfold mbind, M_bind. by rewrite Hrun.
Qed.

Lemma run_ops_keeps ops s :
  registry_inv s → ∃ s', run_ops linux ops s = Some (tt, s') ∧ keeps s s'.
Proof.
  revert s. induction ops as [|op ops IH]; intros s Hinv.
  - exists s. by split.
  - destruct (run_op_keeps op s Hinv) as (s1 & Hop & Hk1).
    destruct (IH s1 (proj1 Hk1)) as (s2 & Hops & Hk2).
    exists s2. split; [|by eapply keeps_trans].
    cbn [run_ops]. unfold mbind, M_bind. by rewrite Hop.
Qed.

(** Init twice on an unset class: the second call adds a line to the log. *)
Lemma InitGlobalThreadPool_twice c a b s :
  0 < a → 0 < b → global_pool c s = None →
  ∃ s1 p, InitGlobalThreadPool linux c a s = Some (tt, s1) ∧
          global_pool c s1 = Some (length (heap s)) ∧
          heap s1 = heap s ++ [p] ∧
          p = ThreadPool_new linux a (class_prefix c) ∧
          InitGlobalThreadPool linux c b s1 =
            Some (tt, with_log (mkLog INFO (msg_already_initialized c) (Some (size p))) s1).
Proof.
  intros Ha Hb Hc. eexists _, _.
  split; [by apply InitGlobalThreadPool_unset|].
  rewrite global_pool_with_log, global_pool_with_global_pool, decide_True by done.
  split; [done|]. cbn [heap with_log]. rewrite heap_with_global_pool. cbn [heap with_heap].
  split; [done|]. split; [done|].
  eapply InitGlobalThreadPool_set; [done| |].
  - by rewrite global_pool_with_log, global_pool_with_global_pool, decide_True.
  - cbn [heap with_log]. rewrite heap_with_global_pool. cbn [heap with_heap].
    by apply list_lookup_middle.
Qed.

End RegistryTraces.

(** ** The registry under interleaving *)

Module InterleavedFacts.

Import Interleaved.

(** *** Counting threads *)

Lemma count_cons f t ts :
  count f (t :: ts) = (indicator (f t) + count f ts)%nat.
Proof.
  unfold count. rewrite filter_cons.
  destruct (decide (f t = true)) as [->|Hf]; [done|].
  by apply not_true_is_false in Hf as ->.
Qed.

Lemma count_insert f ts i t t' :
  ts !! i = Some t →
  (count f (<[i := t']> ts) + indicator (f t) = count f ts + indicator (f t'))%nat.
Proof.
  revert i. induction ts as [|u ts IH]; intros [|i] Hi; try done.
  - cbn in Hi. injection Hi as ->.
    change (<[0%nat := t']> (t :: ts)) with (t' :: ts). rewrite !count_cons. lia.
  - cbn in Hi. specialize (IH i Hi).
    change (<[S i := t']> (u :: ts)) with (u :: <[i := t']> ts).
    rewrite !count_cons. lia.
Qed.

Lemma count_pos f ts i t :
  ts !! i = Some t → f t = true → (1 ≤ count f ts)%nat.
Proof.
  revert i. induction ts as [|u ts IH]; intros [|i] Hi Hf; try done.
  - cbn in Hi. injection Hi as ->. rewrite count_cons, Hf. cbn. lia.
  - rewrite count_cons. cbn in Hi. specialize (IH i Hi Hf). lia.
Qed.

Lemma count_two f ts i j ti tj :
  i ≠ j → ts !! i = Some ti → ts !! j = Some tj →
  f ti = true → f tj = true → (2 ≤ count f ts)%nat.
Proof.
  intros Hne Hi Hj Hfi Hfj. revert i j Hne Hi Hj.
  induction ts as [|u ts IH]; intros [|i] [|j] Hne Hi Hj; try done.
  - cbn in Hi, Hj. injection Hi as ->. rewrite count_cons, Hfi.
    pose proof (count_pos f ts j tj Hj Hfj). cbn. lia.
  - cbn in Hi, Hj. injection Hj as ->. rewrite count_cons, Hfj.
    pose proof (count_pos f ts i ti Hi Hfi). cbn. lia.
  - cbn in Hi, Hj. rewrite count_cons.
    assert (2 ≤ count f ts)%nat; [|lia].
    eapply (IH i j); try done. lia.
Qed.

Lemma constructing_holds c t : constructing c t = true → holds c t = true.
Proof. unfold constructing, holds. by destruct (pc t) as [|? ? [] ?| | | | |]. Qed.

Lemma assigning_constructing c t : assigning c t = true → constructing c t = true.
Proof. unfold constructing, assigning. by destruct (pc t) as [|? ? [] ?| | | | |]. Qed.

(** *** Heaps that keep their objects, up to a resize in place *)

Lemma heap_extends_refl h : heap_extends h h.
Proof. intros a p Hp. by exists p. Qed.

Lemma heap_extends_app h p : heap_extends h (h ++ [p]).
Proof. intros a q Hq. exists q. split; [|done]. by apply lookup_app_l_Some. Qed.

Lemma heap_extends_insert h a p p' :
  h !! a = Some p → name_prefix p' = name_prefix p → heap_extends h (<[a := p']> h).
Proof. intros Ha Hp i q Hq. by eapply lookup_insert_prefix. Qed.

(** *** One step keeps the invariant *)

(** The invariant of a class survives a step of thread [i] from [t] to
    [t'] that leaves the process [σ1], provided the step balances the
    mutex against the guarded region, constructs and assigns only where
    the static is unset and dereferences it only where it is set, changes
    the static only inside the guarded region and only from unset to what
    the thread has constructed, balances the pools against the static and
    the pending assignments, and keeps the heap. *)
Lemma inv_at_preserved c σ i t t' σ1 :
  inv_at c σ →
  threads σ !! i = Some t →
  threads σ1 = threads σ →
  (indicator (mutex c σ1) + indicator (holds c t)
     = indicator (mutex c σ) + indicator (holds c t'))%nat →
  (constructing c t' = true → global_pool c (mem σ1) = None) →
  (expects c t' = true → is_Some (global_pool c (mem σ1))) →
  (global_pool c (mem σ1) = global_pool c (mem σ) ∨ holds c t = true) →
  static_kept c (mem σ) (mem σ1) →
  (pools_of c (mem σ1) + indicator (assigning c t)
     + indicator (bool_decide (is_Some (global_pool c (mem σ))))
   = pools_of c (mem σ) + indicator (assigning c t')
     + indicator (bool_decide (is_Some (global_pool c (mem σ1)))))%nat →
  heap_extends (heap (mem σ)) (heap (mem σ1)) →
  (∀ a, global_pool c (mem σ1) = Some a →
        global_pool c (mem σ) = Some a ∨ ∃ n ret, pc t = Init c n (AtAssign a) ret) →
  (∀ n a ret, pc t' = Init c n (AtAssign a) ret →
              ∃ p, heap (mem σ1) !! a = Some p ∧ name_prefix p = class_prefix c) →
  inv_at c (with_thread i t' σ1) ∧ static_kept c (mem σ) (mem σ1).
Proof.
  intros [Hmutex Hunset Hset Hpools Howned Hfresh] Hi Hts Hm Hcon Hexp Hgp Hkept
    Hcount Hext Hassign Hnew.
  assert (Hlen : (i < length (threads σ))%nat) by (by eapply lookup_lt_Some).
  assert (Hmx : mutex c (with_thread i t' σ1) = mutex c σ1) by (by destruct c).
  split; [|done].
  split; cbn [mem threads with_thread]; rewrite ?Hmx, ?Hts.
  - pose proof (count_insert (holds c) (threads σ) i t t' Hi). lia.
  - intros j tj Hj Hcj. destruct (decide (i = j)) as [<-|Hne].
    + rewrite list_lookup_insert_eq in Hj by done. injection Hj as <-. auto.
    + rewrite list_lookup_insert_ne in Hj by done.
      destruct Hgp as [->|Hholds]; [by eapply Hunset|].
      pose proof (count_two (holds c) (threads σ) i j t tj Hne Hi Hj Hholds
                    (constructing_holds c tj Hcj)) as Htwo.
      rewrite Hmutex in Htwo. destruct (mutex c σ); cbn in Htwo; lia.
  - intros j tj Hj Hej. destruct (decide (i = j)) as [<-|Hne].
    + rewrite list_lookup_insert_eq in Hj by done. injection Hj as <-. auto.
    + rewrite list_lookup_insert_ne in Hj by done.
      destruct (Hset j tj Hj Hej) as [a Ha]. exists a. by apply Hkept.
  - pose proof (count_insert (assigning c) (threads σ) i t t' Hi). lia.
  - intros a Ha. destruct (Hassign a Ha) as [Hold|(n & ret & Hpc)].
    + destruct (Howned a Hold) as (p & Hp & Hpre).
      destruct (Hext a p Hp) as (p' & Hp' & Hpre'). exists p'. split; [done|]. congruence.
    + destruct (Hfresh i t n a ret Hi Hpc) as (p & Hp & Hpre).
      destruct (Hext a p Hp) as (p' & Hp' & Hpre'). exists p'. split; [done|]. congruence.
  - intros j tj n a ret Hj Hpc. destruct (decide (i = j)) as [<-|Hne].
    + rewrite list_lookup_insert_eq in Hj by done. injection Hj as <-. eauto.
    + rewrite list_lookup_insert_ne in Hj by done.
      destruct (Hfresh j tj n a ret Hj Hpc) as (p & Hp & Hpre).
      destruct (Hext a p Hp) as (p' & Hp' & Hpre'). exists p'. split; [done|]. congruence.
Qed.

Lemma holds_locked c σ i t :
  inv σ → threads σ !! i = Some t → holds c t = true → mutex c σ = true.
Proof.
  intros Hinv Hi Hh. destruct (Hinv c) as [Hmutex _ _ _ _ _].
  pose proof (count_pos (holds c) (threads σ) i t Hi Hh) as Hpos.
  rewrite Hmutex in Hpos. destruct (mutex c σ); [done|cbn in Hpos; lia].
Qed.

Lemma mutex_with_mem c m σ : mutex c (with_mem m σ) = mutex c σ.
Proof. by destruct c. Qed.

Lemma mutex_with_mutex c c' b σ :
  mutex c (with_mutex c' b σ) = if decide (c = c') then b else mutex c σ.
Proof. by destruct c, c'. Qed.

Lemma mem_with_mutex c b σ : mem (with_mutex c b σ) = mem σ.
Proof. by destruct c. Qed.

Lemma threads_with_mutex c b σ : threads (with_mutex c b σ) = threads σ.
Proof. by destruct c. Qed.

Lemma pools_of_new linux c c' n s :
  pools_of c (with_heap (heap s ++ [ThreadPool_new linux n (class_prefix c')]) s)
    = (pools_of c s + indicator (bool_decide (c = c')))%nat.
Proof.
  unfold pools_of. cbn [heap with_heap].
  rewrite count_pools_app, count_pools_singleton.
  by rewrite (is_pool_of_prefix c _ c') by apply ThreadPool_new_prefix.
Qed.

Ltac flags Hpc :=
  unfold static_kept, holds, constructing, assigning, expects, goto; cbn [pc];
  rewrite ?Hpc;
  rewrite ?mutex_with_mem, ?mutex_with_mutex, ?mem_with_mutex, ?threads_with_mutex;
  cbn [mem threads with_mem indicator].

Ltac frame Hinv Hi Hpc :=
  match goal with
  | |- inv_at ?c0 (with_thread ?i ?t' ?σ1) ∧ _ =>
      eapply (inv_at_preserved c0 _ i _ t' σ1);
      [ apply Hinv | exact Hi | .. ]; flags Hpc
  end.

Lemma pools_of_with_log c e s : pools_of c (with_log e s) = pools_of c s.
Proof. reflexivity. Qed.

Lemma pools_of_with_global_pool c c' a s :
  pools_of c (with_global_pool c' a s) = pools_of c s.
Proof. by destruct c'. Qed.

Lemma on_mem_log_size text a x σ σ' :
  on_mem (log_size text a) σ = Some (x, σ') →
  ∃ e, σ' = with_mem (with_log e (mem σ)) σ.
Proof.
  unfold on_mem, log_size, ThreadPool_size. unfold_M.
  destruct (heap (mem σ) !! a); [|done]. intros [= _ <-]. eauto.
Qed.

Lemma on_mem_log_size_owned text a p σ :
  heap (mem σ) !! a = Some p →
  on_mem (log_size text a) σ
    = Some (tt, with_mem (with_log (mkLog INFO text (Some (size p))) (mem σ)) σ).
Proof.
  intros Hp. unfold on_mem, log_size, mbind, M_bind.
  by rewrite (ThreadPool_size_owned a p).
Qed.

Lemma on_mem_SetNumThreads a n x σ σ' :
  on_mem (SetNumThreads a n) σ = Some (x, σ') →
  σ' = with_mem (with_log msg_zero_threads (mem σ)) σ ∨
  ∃ p p', heap (mem σ) !! a = Some p ∧ name_prefix p' = name_prefix p ∧
          σ' = with_mem (with_heap (<[a := p']> (heap (mem σ))) (mem σ)) σ.
Proof.
  unfold on_mem, SetNumThreads. destruct (n =? 0).
  - intros [= _ <-]. by left.
  - unfold_M. destruct (heap (mem σ) !! a) as [p|] eqn:Hp; [|done].
    intros [= _ <-]. right. eexists p, _. split; [done|]. split; [|reflexivity]. done.
Qed.

Ltac by_class :=
  repeat case_decide; repeat case_bool_decide; subst; cbn; try done; try lia.

Ltac side :=
  rewrite ?global_pool_with_log, ?global_pool_with_heap, ?pools_of_with_log,
    ?pools_of_with_global_pool, ?pools_of_new, ?heap_with_global_pool,
    ?global_pool_with_global_pool;
  cbn [heap with_log with_heap];
  try (intros; done); try lia;
  auto using heap_extends_refl, heap_extends_app.

Lemma thread_step_inv linux σ i t t' σ1 :
  inv σ → threads σ !! i = Some t →
  thread_step linux t σ = Some (t', σ1) →
  ∀ c, inv_at c (with_thread i t' σ1) ∧ static_kept c (mem σ) (mem σ1).
Proof.
  intros Hinv Hi Hstep c0. unfold thread_step in Hstep.
  destruct (pc t) as [|c n ph ret|c n|c n|c|c hc|c] eqn:Hpc.
  - destruct (todo t) as [|op rest]; [done|]. injection Hstep as <- <-.
    frame Hinv Hi Hpc; destruct op; side.
  - destruct ph as [| | | | |a| | |].
    + (* the guard *)
      destruct (n <=? 0); injection Hstep as <- <-; frame Hinv Hi Hpc;
        try (destruct ret); side.
    + (* the test outside the lock *)
      destruct (global_pool c (mem σ)) eqn:Hgp; injection Hstep as <- <-;
        frame Hinv Hi Hpc; side.
      intros ->%bool_decide_eq_true. by rewrite Hgp.
    + (* taking the mutex *)
      destruct (mutex c σ) eqn:Hm; [done|]. injection Hstep as <- <-.
      frame Hinv Hi Hpc; side.
      by_class; rewrite ?Hm; by_class.
    + (* the test under the lock *)
      destruct (global_pool c (mem σ)) eqn:Hgp; injection Hstep as <- <-;
        frame Hinv Hi Hpc; side.
      by intros ->%bool_decide_eq_true.
    + (* make_shared *)
      assert (Hnone : global_pool c (mem σ) = None).
      { apply (inv_unset c σ (Hinv c) i t Hi). unfold constructing. rewrite Hpc.
        by apply bool_decide_eq_true. }
      cbn in Hstep. injection Hstep as <- <-.
      frame Hinv Hi Hpc; side.
      * by intros ->%bool_decide_eq_true.
      * by_class.
      * intros n0 a ret0 [= -> -> <- ->]. eexists. split; [by apply list_lookup_middle|].
        apply ThreadPool_new_prefix.
    + (* the assignment *)
      assert (Hnone : global_pool c (mem σ) = None).
      { apply (inv_unset c σ (Hinv c) i t Hi). unfold constructing. rewrite Hpc.
        by apply bool_decide_eq_true. }
      cbn in Hstep. injection Hstep as <- <-.
      frame Hinv Hi Hpc; side.
      * by_class; auto.
      * intros a0. by_class. by rewrite Hnone.
      * destruct (decide (c0 = c)) as [->|Hne].
        -- rewrite Hnone, (bool_decide_eq_true_2 (c = c)) by done.
           rewrite (bool_decide_eq_false_2 (is_Some None)) by (by intros [??]).
           rewrite (bool_decide_eq_true_2 (is_Some (Some a))) by eauto.
           cbn [indicator]. lia.
        -- rewrite (bool_decide_eq_false_2 (c = c0)) by congruence. cbn [indicator]. lia.
      * intros a0. by_class; intros [= ->]; eauto.
    + (* the log line *)
      cbn in Hstep. injection Hstep as <- <-.
      frame Hinv Hi Hpc; side.
    + (* releasing the mutex *)
      assert (Hm : mutex c σ = true).
      { apply (holds_locked c σ i t Hinv Hi). unfold holds. rewrite Hpc.
        by apply bool_decide_eq_true. }
      injection Hstep as <- <-.
      frame Hinv Hi Hpc; try destruct ret; side.
      all: by_class; rewrite ?Hm; by_class.
    + (* already initialized *)
      destruct (global_pool c (mem σ)) as [a|] eqn:Hgp; [|done]. cbn in Hstep.
      destruct (on_mem (log_size _ a) σ) as [[[] σ']|] eqn:Hlog; [|done].
      apply on_mem_log_size in Hlog as [e ->]. injection Hstep as <- <-.
      frame Hinv Hi Hpc; try destruct ret; side.
  - (* SetGlobal*ThreadPoolSize: the test *)
    destruct (global_pool c (mem σ)) eqn:Hgp; injection Hstep as <- <-;
      frame Hinv Hi Hpc; side.
    intros ->%bool_decide_eq_true. by rewrite Hgp.
  - (* SetNumThreads *)
    destruct (global_pool c (mem σ)) as [a|] eqn:Hgp; [|done]. cbn in Hstep.
    destruct (on_mem (SetNumThreads a n) σ) as [[[] σ']|] eqn:Hset; [|done].
    injection Hstep as <- <-.
    apply on_mem_SetNumThreads in Hset as [->|(p & p' & Hp & Hpre & ->)];
      frame Hinv Hi Hpc; side.
    all: try (intros ->%bool_decide_eq_true; by rewrite Hgp).
    + unfold pools_of. cbn [heap with_heap].
      by rewrite (count_pools_insert c0 _ a p).
    + by apply (heap_extends_insert _ a p).
  - (* the log line of the resize *)
    destruct (global_pool c (mem σ)) as [a|] eqn:Hgp; [|done]. cbn in Hstep.
    destruct (on_mem (log_size _ a) σ) as [[[] σ']|] eqn:Hlog; [|done].
    apply on_mem_log_size in Hlog as [e ->]. injection Hstep as <- <-.
    frame Hinv Hi Hpc; side.
  - (* GetGlobal*ThreadPool: the test *)
    destruct (global_pool c (mem σ)); injection Hstep as <- <-;
      frame Hinv Hi Hpc; side.
  - (* the return *)
    injection Hstep as <- <-. frame Hinv Hi Hpc; side.
Qed.

Lemma step_inv linux i σ σ' :
  inv σ → step linux i σ = Some σ' →
  inv σ' ∧ ∀ c, static_kept c (mem σ) (mem σ').
Proof.
  intros Hinv Hstep. unfold step in Hstep.
  destruct (threads σ !! i) as [t|] eqn:Hi; [|done]. cbn in Hstep.
  destruct (thread_step linux t σ) as [[t' σ1]|] eqn:Ht; [|done].
  injection Hstep as <-.
  pose proof (thread_step_inv linux σ i t t' σ1 Hinv Hi Ht) as Hkeep.
  split; intros c; apply Hkeep.
Qed.

Lemma run_inv linux schedule σ :
  inv σ → inv (run linux schedule σ) ∧
          ∀ c, static_kept c (mem σ) (mem (run linux schedule σ)).
Proof.
  revert σ. induction schedule as [|i schedule IH]; intros σ Hinv; [split; [done|by intros c a]|].
  cbn [run]. destruct (step linux i σ) as [σ'|] eqn:Hstep; cbn [default].
  - destruct (step_inv linux i σ σ' Hinv Hstep) as [Hinv' Hkept].
    destruct (IH σ' Hinv') as [Hrun Hkept']. split; [done|].
    intros c a Ha. by apply Hkept', Hkept.
  - by apply IH.
Qed.

Lemma count_idle f programs :
  (∀ ops, f {| pc := Idle; todo := ops; got := [] |} = false) →
  count f ((λ ops, {| pc := Idle; todo := ops; got := [] |}) <$> programs) = 0%nat.
Proof.
  intros Hf. induction programs as [|ops programs IH]; [done|].
  rewrite fmap_cons, count_cons, Hf, IH. done.
Qed.

Lemma inv_start omp programs : inv (start omp programs).
Proof.
  intros c.
  assert (Hidle : ∀ i t, threads (start omp programs) !! i = Some t → pc t = Idle).
  { intros i t. cbn. rewrite list_lookup_fmap.
    destruct (programs !! i); cbn; [|done]. by intros [= <-]. }
  split.
  - cbn [start threads]. rewrite count_idle by done. by destruct c.
  - intros i t Hi. unfold constructing. by rewrite (Hidle i t Hi).
  - intros i t Hi. unfold expects. by rewrite (Hidle i t Hi).
  - cbn [start threads]. rewrite count_idle by done. by destruct c.
  - by destruct c.
  - intros i t n a ret Hi Hpc. by rewrite (Hidle i t Hi) in Hpc.
Qed.

Lemma inv_at_most_one c σ : inv σ → (pools_of c (mem σ) ≤ 1)%nat.
Proof.
  intros Hinv. destruct (Hinv c) as [Hmutex Hunset _ Hpools _ _]. rewrite Hpools.
  destruct (decide (count (assigning c) (threads σ) = 0%nat)) as [->|Hpos].
  { destruct (bool_decide _); cbn; lia. }
  assert (Hle : (count (assigning c) (threads σ) ≤ count (holds c) (threads σ))%nat).
  { unfold count. generalize (threads σ). intros ts.
    induction ts as [|t ts IH]; [done|]. rewrite !filter_cons.
    destruct (decide (assigning c t = true)) as [Ha|Ha].
    - rewrite decide_True
        by (by apply constructing_holds, assigning_constructing). cbn. lia.
    - destruct (decide (holds c t = true)); cbn; lia. }
  assert (Hex : ∃ i t, threads σ !! i = Some t ∧ assigning c t = true).
  { unfold count in Hpos.
    destruct (filter _ (threads σ)) as [|t ts] eqn:Hf; [done|].
    assert (Hin : t ∈ filter (λ t, assigning c t = true) (threads σ))
      by (rewrite Hf; apply list_elem_of_here).
    apply list_elem_of_filter in Hin as [Ha Hin].
    apply list_elem_of_lookup in Hin as [i Hi]. eauto. }
  destruct Hex as (i & t & Hi & Ha).
  rewrite (Hunset i t Hi (assigning_constructing c t Ha)).
  rewrite Hmutex in Hle. rewrite bool_decide_eq_false_2 by (by intros [??]).
  destruct (mutex c σ); cbn in *; lia.
Qed.

(** A thread that cannot step has made all its calls or waits for a
    mutex: no step dereferences a null or a dangling pointer. *)
Lemma thread_step_None linux σ i t :
  inv σ → threads σ !! i = Some t → thread_step linux t σ = None →
  (pc t = Idle ∧ todo t = []) ∨
  ∃ c n ret, pc t = Init c n AtLock ret ∧ mutex c σ = true.
Proof.
  intros Hinv Hi. unfold thread_step.
  assert (Hderef : ∀ c, expects c t = true →
            ∃ a p, global_pool c (mem σ) = Some a ∧ heap (mem σ) !! a = Some p).
  { intros c He. destruct (Hinv c) as [_ _ Hset _ Howned _].
    destruct (Hset i t Hi He) as [a Ha]. destruct (Howned a Ha) as (p & Hp & _). eauto. }
  unfold expects in Hderef.
  destruct (pc t) as [|c n ph ret|c n|c n|c|c hc|c] eqn:Hpc.
  - destruct (todo t); [by left|done].
  - destruct ph as [| | | | |a| | |]; try done.
    + by destruct (n <=? 0).
    + by destruct (global_pool c (mem σ)).
    + destruct (mutex c σ) eqn:Hm; [|done]. right. eauto.
    + by destruct (global_pool c (mem σ)).
    + destruct (Hderef c) as (a & p & -> & Hp); [by apply bool_decide_eq_true|].
      cbn. by rewrite (on_mem_log_size_owned _ a p).
  - by destruct (global_pool c (mem σ)).
  - destruct (Hderef c) as (a & p & -> & Hp); [by apply bool_decide_eq_true|].
    cbn. unfold on_mem. destruct (decide (n = 0)) as [->|Hn].
    + by rewrite SetNumThreads_zero.
    + by rewrite (SetNumThreads_nonzero a n p).
  - destruct (Hderef c) as (a & p & -> & Hp); [by apply bool_decide_eq_true|].
    cbn. by rewrite (on_mem_log_size_owned _ a p).
  - by destruct (global_pool c (mem σ)).
  - done.
Qed.

End InterleavedFacts.

(** ** One pool per workload class *)

(** C6.  Per workload class at most one pool is ever constructed, and the
    static of the class, once set, is never assigned again by init, set-size
    or get: on one thread of control, over every sequence of calls from a
    state of the registry; and over every interleaving of the atomic steps
    of threads running any programs of calls from the start of the process.
    In particular init with [a] and then init with [b] on an unset class
    leaves the pool constructed with [a] threads, the second call adding a
    line to the log and nothing else. *)
Theorem registry_single_instance (linux : bool) :
  (∀ ops s, registry_inv s →
     ∃ s', run_ops linux ops s = Some (tt, s') ∧
           registry_inv s' ∧
           (∀ c, (pools_of c s' ≤ 1)%nat) ∧
           (∀ c a, global_pool c s = Some a → global_pool c s' = Some a)) ∧
  (∀ c a b s, 0 < a < 2 ^ 32 → 0 < b < 2 ^ 32 → a ≠ b → global_pool c s = None →
     ∃ s1 s2 p,
       InitGlobalThreadPool linux c a s = Some (tt, s1) ∧
       InitGlobalThreadPool linux c b s1 = Some (tt, s2) ∧
       global_pool c s2 = Some (length (heap s)) ∧
       heap s2 !! length (heap s) = Some p ∧
       numThreads (pool_ p) = a ∧
       (a <= Int.INT32_MAX → size p = a) ∧
       heap s2 = heap s1 ∧ build_pool_ s2 = build_pool_ s1 ∧
       search_pool_ s2 = search_pool_ s1 ∧ omp_nthreads s2 = omp_nthreads s1) ∧
  (∀ omp programs schedule,
     let σ := Interleaved.run linux schedule (Interleaved.start omp programs) in
     (∀ c, (pools_of c (Interleaved.mem σ) ≤ 1)%nat) ∧
     (∀ c a more, global_pool c (Interleaved.mem σ) = Some a →
        global_pool c (Interleaved.mem (Interleaved.run linux more σ)) = Some a)).
Proof.
  split; [|split].
  - intros ops s Hinv.
    destruct (run_ops_keeps linux ops s Hinv) as (s' & Hrun & Hinv' & Hkept).
    exists s'. split; [done|]. split; [done|]. split; [|done].
    intros c. by apply registry_inv_at_most_one.
  - intros c a b s Ha Hb _ Hc.
    destruct (InitGlobalThreadPool_twice linux c a b s) as (s1 & p & H1 & Hp1 & Hh1 & -> & H2);
      [lia|lia|done|].
    eexists s1, _, _. split; [done|]. split; [exact H2|].
    rewrite global_pool_with_log. split; [done|].
    cbn [heap with_log]. split; [rewrite Hh1; by apply list_lookup_middle|].
    split; [apply ThreadPool_new_numThreads; unfold Int.is_uint32; lia|].
    split; [intros Hmax; apply ThreadPool_new_size; lia|]. done.
  - intros omp programs schedule σ.
    destruct (InterleavedFacts.run_inv linux schedule (Interleaved.start omp programs)
                (InterleavedFacts.inv_start omp programs)) as [Hinv _].
    split.
    + intros c. by apply InterleavedFacts.inv_at_most_one.
    + intros c a more Ha.
      destruct (InterleavedFacts.run_inv linux more σ Hinv) as [_ Hkept].
      by apply Hkept.
Qed.

Lemma registry_single_instance_witness :
  (∃ s', run_ops true [OpInit Build 4; OpInit Build 7; OpSetSize Build 3; OpGet Search 2]
           (initial_state 8) = Some (tt, s') ∧
         (pools_of Build s' ≤ 1)%nat ∧ (pools_of Search s' ≤ 1)%nat) ∧
  (∃ s2 p, (InitGlobalThreadPool true Build 4;; InitGlobalThreadPool true Build 7)
             (initial_state 8) = Some (tt, s2) ∧
           heap s2 !! 0%nat = Some p ∧ numThreads (pool_ p) = 4).
Proof.
  destruct (registry_single_instance true) as (Hseq & Htwice & _). split.
  - destruct (Hseq [OpInit Build 4; OpInit Build 7; OpSetSize Build 3; OpGet Search 2]
                (initial_state 8) (registry_inv_initial 8)) as (s' & Hrun & _ & Hone & _).
    exists s'. split; [exact Hrun|]. split; apply Hone.
  - destruct (Htwice Build 4 7 (initial_state 8)) as (s1 & s2 & p & H1 & H2 & _ & Hp & Hn & _);
      [lia|lia|lia|reflexivity|].
    exists s2, p. split; [|by split].
    unfold mbind, M_bind. by rewrite H1.
Defined.

(** A thread running alone does what the member functions do on one thread
    of control. *)
Example run_alone :
  Interleaved.mem
    (Interleaved.run true (replicate 30 0%nat)
       (Interleaved.start 8 [[OpInit Build 4; OpGet Build 2; OpSetSize Build 3]]))
  = default (initial_state 8)
      (snd <$> run_ops true [OpInit Build 4; OpGet Build 2; OpSetSize Build 3]
                 (initial_state 8)).
Proof. reflexivity. Qed.

(** Two threads pass the test outside the lock before either takes the
    mutex; the second to take it finds the static set and constructs
    nothing. *)
Example run_race :
  let σ := Interleaved.run true [0; 0; 0; 1; 1; 1; 1; 0; 1; 1; 1; 1; 1; 0; 0; 0; 0]%nat
             (Interleaved.start 8 [[OpInit Build 4]; [OpInit Build 7]]) in
  (numThreads ∘ pool_) <$> heap (Interleaved.mem σ) = [7] ∧
  build_pool_ (Interleaved.mem σ) = Some 0%nat ∧
  Interleaved.pc <$> Interleaved.threads σ = [Interleaved.Idle; Interleaved.Idle].
Proof. by vm_compute. Qed.

(** * Further properties of the unit *)

(** ** Resizing through the registry *)

(** X1.  On a class whose pool exists, [SetGlobal*ThreadPoolSize(n)] with a
    count from 1 to [2^32 - 1] resizes that pool in place: the static and
    the number of objects are as before, the pool has [n] threads, its
    [size()] is [n] narrowed to [int32_t] (so [n] itself up to [INT32_MAX]
    and [n - 2^32], a negative number, above), and the one line added to the
    log reports that [size()]. *)
Theorem SetGlobalThreadPoolSize_resizes (linux : bool) (c : WorkloadClass) (n : Z)
    (a : nat) (p : ThreadPool) (s : State) :
  global_pool c s = Some a →
  heap s !! a = Some p →
  1 <= n <= 2 ^ 32 - 1 →
  ∃ s' p', SetGlobalThreadPoolSize linux c n s = Some (tt, s') ∧
           global_pool c s' = Some a ∧
           length (heap s') = length (heap s) ∧
           heap s' !! a = Some p' ∧
           numThreads (pool_ p') = n ∧
           size p' = Int.to_int32 n ∧
           (n <= Int.INT32_MAX → size p' = n) ∧
           (Int.INT32_MAX < n → size p' = n - 2 ^ 32 ∧ size p' < 0) ∧
           log s' = log s ++ [mkLog INFO (msg_already_set c) (Some (size p'))].
Proof.
  intros Hc Hp Hn.
  eexists _, _. split; [apply (SetGlobalThreadPoolSize_set linux c n a p); [lia|done|done]|].
  rewrite global_pool_with_log, global_pool_with_heap. split; [done|].
  cbn [heap with_log with_heap]. split; [apply length_insert|].
  split; [apply list_lookup_insert_eq; by eapply lookup_lt_Some|].
  assert (Hnum : Int.to_size_t n = n) by (apply to_size_t_id; lia).
  unfold size. cbn [pool_ numThreads setNumThreads exec_numThreads]. rewrite Hnum.
  split; [done|]. split; [done|]. unfold Int.INT32_MAX. split; [|split; [|done]].
  - intros Hmax. apply to_int32_id. unfold Int.is_int32. lia.
  - intros Hmax. rewrite to_int32_high by lia. lia.
Qed.

Lemma SetGlobalThreadPoolSize_resizes_witness :
  ∃ s' p', SetGlobalThreadPoolSize true Build 3 (build_pool_state 4 8) = Some (tt, s') ∧
           global_pool Build s' = Some 0%nat ∧
           length (heap s') = 1%nat ∧
           heap s' !! 0%nat = Some p' ∧
           numThreads (pool_ p') = 3 ∧
           size p' = Int.to_int32 3 ∧
           (3 <= Int.INT32_MAX → size p' = 3) ∧
           (Int.INT32_MAX < 3 → size p' = 3 - 2 ^ 32 ∧ size p' < 0) ∧
           log s' = [] ++ [mkLog INFO (msg_already_set Build) (Some (size p'))].
Proof.
  apply (SetGlobalThreadPoolSize_resizes true Build 3 0%nat
           (ThreadPool_new true 4 "knowhere_build") (build_pool_state 4 8)).
  - reflexivity.
  - reflexivity.
  - lia.
Defined.

(** X2.  On a class whose pool exists, [SetGlobal*ThreadPoolSize(0)] changes
    nothing but the log, to which it adds the diagnostic of [SetNumThreads]
    and then the line "has already been set to" with the size the pool
    already had. *)
Theorem SetGlobalThreadPoolSize_zero_logs_old_size (linux : bool) (c : WorkloadClass)
    (a : nat) (p : ThreadPool) (s : State) :
  global_pool c s = Some a →
  heap s !! a = Some p →
  ∃ s', SetGlobalThreadPoolSize linux c 0 s = Some (tt, s') ∧
        heap s' = heap s ∧
        build_pool_ s' = build_pool_ s ∧
        search_pool_ s' = search_pool_ s ∧
        omp_nthreads s' = omp_nthreads s ∧
        log s' = log s ++ [msg_zero_threads;
                           mkLog INFO (msg_already_set c) (Some (size p))].
Proof.
  intros Hc Hp. eexists.
  split; [by apply (SetGlobalThreadPoolSize_set_zero linux c a p)|].
  cbn. by rewrite <- app_assoc.
Qed.

Lemma SetGlobalThreadPoolSize_zero_logs_old_size_witness :
  ∃ s', SetGlobalThreadPoolSize true Build 0 (build_pool_state 4 8) = Some (tt, s') ∧
        heap s' = heap (build_pool_state 4 8) ∧
        build_pool_ s' = Some 0%nat ∧
        search_pool_ s' = None ∧
        omp_nthreads s' = 8 ∧
        log s' = [] ++ [msg_zero_threads; mkLog INFO (msg_already_set Build) (Some 4)].
Proof.
  apply (SetGlobalThreadPoolSize_zero_logs_old_size true Build 0%nat
           (ThreadPool_new true 4 "knowhere_build") (build_pool_state 4 8));
    reflexivity.
Defined.

(** X3.  A resize keeps the task queue: a pool that the registry constructed
    with [n0] threads and then resized to [n] still has the queue of capacity
    [n0 * 16] and the workers' name of its class. *)
Theorem resize_keeps_queue_capacity (linux : bool) (c : WorkloadClass) (n0 n : Z)
    (s : State) :
  global_pool c s = None →
  1 <= n0 <= 2 ^ 32 - 1 →
  1 <= n <= 2 ^ 32 - 1 →
  ∃ s' a p, (InitGlobalThreadPool linux c n0;; SetGlobalThreadPoolSize linux c n) s
              = Some (tt, s') ∧
            global_pool c s' = Some a ∧
            heap s' !! a = Some p ∧
            numThreads (pool_ p) = n ∧
            queue_capacity p = n0 * 16 ∧
            name_prefix p = class_prefix c.
Proof.
  intros Hc Hn0 Hn. unfold mbind at 1. unfold M_bind.
  rewrite InitGlobalThreadPool_unset by (lia || done).
  set (p0 := ThreadPool_new linux n0 (class_prefix c)).
  set (s1 := with_log _ _).
  assert (Hc1 : global_pool c s1 = Some (length (heap s))).
  { unfold s1. by rewrite global_pool_with_log, global_pool_with_global_pool, decide_True. }
  assert (Hp1 : heap s1 !! length (heap s) = Some p0).
  { unfold s1. cbn [heap with_log]. rewrite heap_with_global_pool. cbn [heap with_heap].
    by apply list_lookup_middle. }
  rewrite (SetGlobalThreadPoolSize_set linux c n _ p0 s1) by (lia || done).
  eexists _, _, _. split; [done|].
  rewrite global_pool_with_log, global_pool_with_heap. split; [done|].
  cbn [heap with_log with_heap].
  split; [apply list_lookup_insert_eq; by eapply lookup_lt_Some|].
  split; [cbn; apply to_size_t_id; lia|]. split.
  - apply (ThreadPool_new_capacity linux n0 (class_prefix c)). unfold Int.is_uint32. lia.
  - apply (ThreadPool_new_prefix linux n0 (class_prefix c)).
Qed.

Lemma resize_keeps_queue_capacity_witness :
  ∃ s' a p, (InitGlobalThreadPool true Search 7;; SetGlobalThreadPoolSize true Search 3)
              (initial_state 8) = Some (tt, s') ∧
            global_pool Search s' = Some a ∧
            heap s' !! a = Some p ∧
            numThreads (pool_ p) = 3 ∧
            queue_capacity p = 7 * 16 ∧
            name_prefix p = class_prefix Search.
Proof.
  apply (resize_keeps_queue_capacity true Search 7 3 (initial_state 8)); [reflexivity|lia|lia].
Defined.

(** ** What a call on the registry leaves alone *)

Lemma registry_inv_distinct c c' a a' s :
  registry_inv s → c ≠ c' →
  global_pool c s = Some a → global_pool c' s = Some a' → a ≠ a'.
Proof.
  intros Hinv Hne Hc Hc' ->.
  destruct (registry_inv_owned c a' s Hinv Hc) as (p & Hp & Hpre).
  destruct (registry_inv_owned c' a' s Hinv Hc') as (p' & Hp' & Hpre').
  apply Hne, class_prefix_inj. congruence.
Qed.

Lemma pools_kept_refl s : pools_kept s s.
Proof. intros a p Hp. by exists p. Qed.

Lemma pools_kept_same_heap s s' : heap s' = heap s → pools_kept s s'.
Proof. intros Hh a p Hp. exists p. by rewrite Hh. Qed.

Lemma pools_kept_trans s1 s2 s3 : pools_kept s1 s2 → pools_kept s2 s3 → pools_kept s1 s3.
Proof.
  intros H12 H23 a p Hp. destruct (H12 a p Hp) as (p2 & Hp2 & Hn2 & Hq2).
  destruct (H23 a p2 Hp2) as (p3 & Hp3 & Hn3 & Hq3). exists p3.
  split; [done|]. split; congruence.
Qed.

Lemma leaves_alone_with_log c e s : leaves_alone c s (with_log e s).
Proof.
  split; [done|]. split; [by exists [e]|]. split; [by apply pools_kept_same_heap|].
  intros c' _. split; [apply global_pool_with_log|done].
Qed.

Section RegistryFrame.

Variable linux : bool.

Lemma InitGlobalThreadPool_leaves_alone c n s :
  registry_inv s →
  ∃ s', InitGlobalThreadPool linux c n s = Some (tt, s') ∧ leaves_alone c s s'.
Proof.
  intros Hinv. destruct (Z.leb_spec n 0) as [Hn|Hn].
  { eexists. split; [by apply InitGlobalThreadPool_rejected|]. apply leaves_alone_with_log. }
  destruct (global_pool c s) as [a|] eqn:Hc.
  - destruct (registry_inv_owned c a s Hinv Hc) as (p & Hp & _).
    eexists. split; [by apply (InitGlobalThreadPool_set linux c n a p)|].
    apply leaves_alone_with_log.
  - eexists. split; [by apply InitGlobalThreadPool_unset|].
    split; [by destruct c|]. split; [cbn; rewrite log_with_global_pool; by eexists|].
    split.
    + intros a p Hp. exists p. cbn [heap with_log]. rewrite heap_with_global_pool.
      split; [by apply lookup_app_l_Some|done].
    + intros c' Hne. split.
      * rewrite global_pool_with_log, global_pool_with_global_pool, decide_False by done.
        apply global_pool_with_heap.
      * intros a' Hc'. cbn [heap with_log]. rewrite heap_with_global_pool. cbn [heap with_heap].
        destruct (registry_inv_owned c' a' s Hinv Hc') as (p' & Hp' & _).
        rewrite Hp'. by apply lookup_app_l_Some.
Qed.

Lemma SetGlobalThreadPoolSize_leaves_alone c n s :
  registry_inv s →
  ∃ s', SetGlobalThreadPoolSize linux c n s = Some (tt, s') ∧ leaves_alone c s s'.
Proof.
  intros Hinv. destruct (global_pool c s) as [a|] eqn:Hc.
  - destruct (registry_inv_owned c a s Hinv Hc) as (p & Hp & _).
    destruct (decide (n = 0)) as [->|Hn].
    + eexists. split; [by apply (SetGlobalThreadPoolSize_set_zero linux c a p)|].
      split; [done|]. split; [cbn; rewrite <- app_assoc; by eexists|].
      split; [by apply pools_kept_same_heap|]. intros c' _. by destruct c'.
    + eexists. split; [by apply (SetGlobalThreadPoolSize_set linux c n a p)|].
      split; [done|]. split; [by eexists|]. split.
      * intros i q Hq. cbn [heap with_log with_heap].
        destruct (decide (a = i)) as [<-|Hne].
        -- eexists. split; [apply list_lookup_insert_eq; by eapply lookup_lt_Some|].
           assert (q = p) as -> by congruence. done.
        -- exists q. by rewrite list_lookup_insert_ne.
      * intros c' Hne. split; [by rewrite global_pool_with_log, global_pool_with_heap|].
        intros a' Hc'. cbn [heap with_log with_heap].
        apply list_lookup_insert_ne. by apply (registry_inv_distinct c c' a a' s).
  - rewrite SetGlobalThreadPoolSize_unset by done.
    by apply InitGlobalThreadPool_leaves_alone.
Qed.

Lemma run_op_leaves_alone op s :
  registry_inv s →
  ∃ s', run_op linux op s = Some (tt, s') ∧ registry_inv s' ∧
        leaves_alone (op_class op) s s'.
Proof.
  intros Hinv. destruct (run_op_keeps linux op s Hinv) as (s' & Hrun & Hinv' & _).
  exists s'. split; [done|]. split; [done|].
  destruct op as [c n|c n|c hc]; cbn [run_op op_class] in *.
  - destruct (InitGlobalThreadPool_leaves_alone c n s Hinv) as (s2 & Hrun2 & Hl).
    congruence.
  - destruct (SetGlobalThreadPoolSize_leaves_alone c n s Hinv) as (s2 & Hrun2 & Hl).
    congruence.
  - unfold mbind, M_bind in Hrun.
    destruct (global_pool c s) as [a|] eqn:Hc.
    + rewrite (GetGlobalThreadPool_set linux c hc a s Hc) in Hrun. injection Hrun as <-.
      split; [done|]. split; [done|]. split; [apply pools_kept_refl|]. by intros c' _.
    + rewrite GetGlobalThreadPool_unset in Hrun by done.
      destruct (InitGlobalThreadPool_leaves_alone c hc s Hinv) as (s2 & Hrun2 & Hl).
      rewrite Hrun2 in Hrun. by injection Hrun as <-.
Qed.

End RegistryFrame.

(** X4.  The two workload classes are independent: over every sequence of
    calls about one class, the static of the other class and the pool that
    static owns stay exactly as they were. *)
Theorem registry_classes_independent (linux : bool) (c : WorkloadClass)
    (ops : list RegistryOp) (s : State) :
  registry_inv s →
  Forall (λ op, op_class op ≠ c) ops →
  ∃ s', run_ops linux ops s = Some (tt, s') ∧
        global_pool c s' = global_pool c s ∧
        ∀ a, global_pool c s = Some a → heap s' !! a = heap s !! a.
Proof.
  intros Hinv Hops. revert s Hinv.
  induction Hops as [|op ops Hop _ IH]; intros s Hinv.
  - exists s. by split.
  - destruct (run_op_leaves_alone linux op s Hinv) as (s1 & Hrun & Hinv1 & _ & _ & _ & Hother).
    destruct (Hother c) as [Hc1 Hh1]; [done|].
    destruct (IH s1 Hinv1) as (s2 & Hrun2 & Hc2 & Hh2).
    exists s2. split; [|split].
    + cbn [run_ops]. unfold mbind, M_bind. by rewrite Hrun.
    + congruence.
    + intros a Ha. rewrite Hh2 by congruence. by apply Hh1.
Qed.

Lemma registry_classes_independent_witness :
  ∃ s', run_ops true [OpSetSize Search 5; OpSetSize Search 0; OpGet Search 2; OpInit Search 9]
          (build_pool_state 4 8) = Some (tt, s') ∧
        global_pool Build s' = global_pool Build (build_pool_state 4 8) ∧
        ∀ a, global_pool Build (build_pool_state 4 8) = Some a →
             heap s' !! a = heap (build_pool_state 4 8) !! a.
Proof.
  apply (registry_classes_independent true Build).
  - intros []; cbn; [split; [done|by eexists]|done].
  - repeat constructor; discriminate.
Defined.

(** X5.  No sequence of calls on the registry changes the thread budget of
    OpenMP, removes or rewrites a line of the log, or destroys a pool: every
    object of the heap keeps its address, the name of its workers and the
    capacity of its queue. *)
Theorem registry_leaves_alone (linux : bool) (ops : list RegistryOp) (s : State) :
  registry_inv s →
  ∃ s', run_ops linux ops s = Some (tt, s') ∧
        omp_nthreads s' = omp_nthreads s ∧
        log s `prefix_of` log s' ∧
        pools_kept s s'.
Proof.
  revert s. induction ops as [|op ops IH]; intros s Hinv.
  - exists s. split; [done|]. split; [done|]. split; [done|apply pools_kept_refl].
  - destruct (run_op_leaves_alone linux op s Hinv)
      as (s1 & Hrun & Hinv1 & Homp1 & Hlog1 & Hkept1 & _).
    destruct (IH s1 Hinv1) as (s2 & Hrun2 & Homp2 & Hlog2 & Hkept2).
    exists s2. split; [|split; [|split]].
    + cbn [run_ops]. unfold mbind, M_bind. by rewrite Hrun.
    + congruence.
    + by etrans.
    + by eapply pools_kept_trans.
Qed.

Lemma registry_leaves_alone_witness :
  ∃ s', run_ops true [OpGet Search 2; OpSetSize Build 6; OpInit Build 0]
          (build_pool_state 4 8) = Some (tt, s') ∧
        omp_nthreads s' = 8 ∧
        [] `prefix_of` log s' ∧
        pools_kept (build_pool_state 4 8) s'.
Proof.
  apply (registry_leaves_alone true [OpGet Search 2; OpSetSize Build 6; OpInit Build 0]
           (build_pool_state 4 8)).
  intros []; cbn; [split; [done|by eexists]|done].
Defined.

(** ** The handle of a class *)

Lemma GetGlobalThreadPool_positive linux c hc s :
  registry_inv s → 1 <= hc →
  ∃ a s1, GetGlobalThreadPool linux c hc s = Some (Some a, s1) ∧
          keeps s s1 ∧ global_pool c s1 = Some a.
Proof.
  intros Hinv Hhc. destruct (global_pool c s) as [a|] eqn:Hc.
  - exists a, s. split; [by apply GetGlobalThreadPool_set|]. by split.
  - destruct (InitGlobalThreadPool_keeps linux c hc s Hinv) as (s1 & Hrun & Hkeep).
    rewrite GetGlobalThreadPool_unset, Hrun by done.
    rewrite InitGlobalThreadPool_unset in Hrun by (lia || done). injection Hrun as <-.
    rewrite global_pool_with_log, global_pool_with_global_pool, decide_True by done.
    eexists _, _. split; [reflexivity|]. split; [exact Hkeep|].
    by rewrite global_pool_with_log, global_pool_with_global_pool, decide_True.
Qed.

(** X6.  With a detected hardware concurrency of at least 1 the getter
    returns a pointer that is not null, and from then on, whatever calls are
    made on the registry in between, every call of the getter of that class
    returns the same pointer and changes nothing, whatever the hardware
    concurrency it is given. *)
Theorem GetGlobalThreadPool_same_handle (linux : bool) (c : WorkloadClass)
    (hardware_concurrency : Z) (s : State) :
  registry_inv s →
  1 <= hardware_concurrency →
  ∃ a s1, GetGlobalThreadPool linux c hardware_concurrency s = Some (Some a, s1) ∧
          ∀ ops hc', ∃ s2, run_ops linux ops s1 = Some (tt, s2) ∧
                           GetGlobalThreadPool linux c hc' s2 = Some (Some a, s2).
Proof.
  intros Hinv Hhc.
  destruct (GetGlobalThreadPool_positive linux c hardware_concurrency s Hinv Hhc)
    as (a & s1 & Hget & [Hinv1 _] & Hc1).
  exists a, s1. split; [done|]. intros ops hc'.
  destruct (run_ops_keeps linux ops s1 Hinv1) as (s2 & Hrun & _ & Hkept).
  exists s2. split; [done|]. apply GetGlobalThreadPool_set. by apply Hkept.
Qed.

Lemma GetGlobalThreadPool_same_handle_witness :
  ∃ a s1, GetGlobalThreadPool true Build 2 (initial_state 8) = Some (Some a, s1) ∧
          ∀ ops hc', ∃ s2, run_ops true ops s1 = Some (tt, s2) ∧
                           GetGlobalThreadPool true Build hc' s2 = Some (Some a, s2).
Proof.
  apply (GetGlobalThreadPool_same_handle true Build 2 (initial_state 8)).
  - apply registry_inv_initial.
  - lia.
Defined.

(** X7.  A pool that the getter created lazily keeps the thread count the
    getter gave it when init is called afterwards: after the getter ran on
    an unset class with hardware concurrency [hc], init with any count [n]
    leaves a pool of [hc] threads behind the same pointer and only adds to
    the log the line "has already been initialized to" with that size. *)
Theorem init_after_lazy_get_is_ignored (linux : bool) (c : WorkloadClass)
    (hc n : Z) (s : State) :
  global_pool c s = None →
  1 <= hc <= 2 ^ 32 - 1 →
  ∃ a s1 p,
    GetGlobalThreadPool linux c hc s = Some (Some a, s1) ∧
    heap s1 !! a = Some p ∧
    numThreads (pool_ p) = hc ∧
    global_pool c s1 = Some a ∧
    InitGlobalThreadPool linux c n s1 =
      Some (tt, with_log (if n <=? 0 then msg_not_positive
                          else mkLog INFO (msg_already_initialized c) (Some (size p))) s1).
Proof.
  intros Hc Hhc.
  rewrite GetGlobalThreadPool_unset, InitGlobalThreadPool_unset by (lia || done).
  set (s1 := with_log _ _).
  assert (Hc1 : global_pool c s1 = Some (length (heap s))).
  { unfold s1. by rewrite global_pool_with_log, global_pool_with_global_pool, decide_True. }
  assert (Hp1 : heap s1 !! length (heap s)
                = Some (ThreadPool_new linux hc (class_prefix c))).
  { unfold s1. cbn [heap with_log]. rewrite heap_with_global_pool. cbn [heap with_heap].
    by apply list_lookup_middle. }
  rewrite Hc1. eexists _, s1, _. split; [done|]. split; [exact Hp1|].
  split; [apply ThreadPool_new_numThreads; unfold Int.is_uint32; lia|]. split; [done|].
  destruct (Z.leb_spec n 0).
  - by apply InitGlobalThreadPool_rejected.
  - by eapply InitGlobalThreadPool_set.
Qed.

Lemma init_after_lazy_get_is_ignored_witness :
  ∃ a s1 p,
    GetGlobalThreadPool true Build 2 (initial_state 8) = Some (Some a, s1) ∧
    heap s1 !! a = Some p ∧
    numThreads (pool_ p) = 2 ∧
    global_pool Build s1 = Some a ∧
    InitGlobalThreadPool true Build 16 s1 =
      Some (tt, with_log (if 16 <=? 0 then msg_not_positive
                          else mkLog INFO (msg_already_initialized Build) (Some (size p))) s1).
Proof.
  apply (init_after_lazy_get_is_ignored true Build 2 16 (initial_state 8)); [reflexivity|lia].
Defined.

(** ** Nested setters *)

Lemma spec_prior_budget_with_omp n s :
  spec_prior_budget (with_omp n s) =
    match build_pool_ s with
    | Some a => size <$> heap s !! a
    | None => Some n
    end.
Proof. reflexivity. Qed.

(** X8.  While the build pool does not exist, setters nest: an inner scope
    runs its body under its own budget, after it the budget is again the
    one the outer setter set, and after the outer scope it is the budget
    from before both. *)
Theorem nested_setters_without_build_pool {A : Type} (n1 n2 : Z) (body : M A)
    (r : A) (s s2 : State) :
  build_pool_ s = None →
  body (with_omp (budget_set n2 (budget_set n1 (omp_nthreads s))) s) = Some (r, s2) →
  scoped n1 (scoped n2 body;; omp_get_max_threads) s
    = Some (budget_set n1 (omp_nthreads s), with_omp (omp_nthreads s) s2).
Proof.
  intros Hb Hbody.
  assert (Hprior : spec_prior_budget s = Some (omp_nthreads s)).
  { unfold spec_prior_budget. by rewrite Hb. }
  rewrite (scoped_eq n1 (omp_nthreads s) _ (budget_set n1 (omp_nthreads s)) s
             (with_omp (budget_set n1 (omp_nthreads s)) s2)); [done|done|].
  fold (budget_set n1 (omp_nthreads s)).
  unfold mbind at 1. unfold M_bind at 1.
  rewrite (scoped_eq n2 (budget_set n1 (omp_nthreads s)) body r _ s2).
  - reflexivity.
  - rewrite spec_prior_budget_with_omp. by rewrite Hb.
  - exact Hbody.
Qed.

Lemma nested_setters_without_build_pool_witness :
  scoped 3 (scoped 5 omp_get_max_threads;; omp_get_max_threads) (initial_state 8)
    = Some (budget_set 3 8, with_omp 8 (with_omp 5 (initial_state 8))).
Proof.
  apply (nested_setters_without_build_pool 3 5 omp_get_max_threads 5
           (initial_state 8) (with_omp 5 (initial_state 8))); reflexivity.
Defined.

(** X9.  Once the build pool exists, with a positive size, an inner setter
    does not give the budget back to the outer one: it records the size of
    the build pool, not the budget the outer setter has set, so after the
    inner scope, and still inside the outer one, the budget is the size of
    the build pool whatever the outer setter was constructed with. *)
Theorem nested_setters_with_build_pool {A : Type} (n1 n2 : Z) (body : M A)
    (r : A) (a : nat) (p : ThreadPool) (s s2 : State) :
  build_pool_ s = Some a →
  heap s !! a = Some p →
  0 < size p →
  body (with_omp (budget_set n2 (size p)) s) = Some (r, s2) →
  scoped n1 (scoped n2 body;; omp_get_max_threads) s
    = Some (size p, with_omp (size p) s2) ∧
  0 < budget_set n1 (size p) ∧ 0 < budget_set n2 (size p).
Proof.
  intros Hb Hp Hpos Hbody.
  split; [|unfold budget_set; destruct (Z.leb_spec n1 0), (Z.leb_spec n2 0); lia].
  assert (Hprior : spec_prior_budget s = Some (size p)).
  { unfold spec_prior_budget. by rewrite Hb, Hp. }
  rewrite (scoped_eq n1 (size p) _ (size p) s (with_omp (size p) s2)); [done|done|].
  unfold mbind at 1. unfold M_bind at 1.
  rewrite (scoped_eq n2 (size p) body r _ s2).
  - reflexivity.
  - rewrite spec_prior_budget_with_omp. by rewrite Hb, Hp.
  - exact Hbody.
Qed.

Lemma nested_setters_with_build_pool_witness :
  scoped 3 (scoped 5 omp_get_max_threads;; omp_get_max_threads) (build_pool_state 4 8)
    = Some (size (ThreadPool_new true 4 "knowhere_build"),
            with_omp (size (ThreadPool_new true 4 "knowhere_build"))
              (with_omp 5 (build_pool_state 4 8))) ∧
  0 < budget_set 3 (size (ThreadPool_new true 4 "knowhere_build")) ∧
  0 < budget_set 5 (size (ThreadPool_new true 4 "knowhere_build")).
Proof.
  apply (nested_setters_with_build_pool 3 5 omp_get_max_threads 5 0%nat
           (ThreadPool_new true 4 "knowhere_build")
           (build_pool_state 4 8) (with_omp 5 (build_pool_state 4 8))); reflexivity.
Defined.

(** ** More on the aggregator *)

Section WaitAllSuccessMore.

Context {T : Type} `{FutureValue T}.

Lemma WaitAllSuccess_cons f (futures : list (Future T)) :
  WaitAllSuccess (f :: futures) = and_then (WaitAllSuccess [f]) (WaitAllSuccess futures).
Proof.
  unfold WaitAllSuccess. destruct f as [[v|e]]; cbn; [|done].
  destruct is_Unit; cbn; [done|].
  destruct (bool_decide_reflect (value_status v = success)) as [Hv|Hv]; cbn; [done|].
  by destruct (value_status v).
Qed.

Lemma WaitAllSuccess_single_success f :
  WaitAllSuccess [f] = Return success ↔ passing f.
Proof.
  unfold WaitAllSuccess, passing, passes. destruct f as [[v|e]]; cbn.
  - destruct is_Unit; cbn.
    + split; [eauto|done].
    + destruct (bool_decide_reflect (value_status v = success)) as [Hv|Hv]; cbn.
      * split; [eauto|done].
      * split; [by intros [= ?]|]. intros (v' & [= <-] & [?|?]); done.
  - split; [done|]. by intros (v & ? & _).
Qed.

End WaitAllSuccessMore.

(** X10.  Waiting for two batches in one call is waiting for the first and,
    only if that gave success, for the second: the outcome of a vector
    [l1 ++ l2] is the outcome of [l1] unless that is success, and then the
    outcome of [l2].  Handles after the first failure play no part. *)
Theorem WaitAllSuccess_app {T : Type} `{FutureValue T} (l1 l2 : list (Future T)) :
  WaitAllSuccess (l1 ++ l2) = and_then (WaitAllSuccess l1) (WaitAllSuccess l2).
Proof.
  induction l1 as [|f l1 IH]; [done|].
  rewrite <- app_comm_cons, WaitAllSuccess_cons, IH, (WaitAllSuccess_cons f l1).
  by destruct (WaitAllSuccess [f]) as [[]|].
Qed.

(** X11.  The call returns success exactly when every handle completed with
    a payload and no payload is a non-success status. *)
Theorem WaitAllSuccess_success_iff {T : Type} `{FutureValue T}
    (futures : list (Future T)) :
  WaitAllSuccess futures = Return success ↔ Forall passing futures.
Proof.
  induction futures as [|f futures IH]; [by split|].
  rewrite WaitAllSuccess_cons, Forall_cons, <- IH, <- WaitAllSuccess_single_success.
  destruct (WaitAllSuccess [f]) as [[]|]; cbn; split; (done || by intros []).
Qed.

(** X12.  The call invents nothing: an error it raises is the error of one
    of the handles, and a status other than success it returns is the
    payload of one of the handles (which then are handles of statuses, not
    of [folly::Unit]). *)
Theorem WaitAllSuccess_outcome_from_handle {T : Type} `{FutureValue T}
    (futures : list (Future T)) :
  (∀ e, WaitAllSuccess futures = Throw e →
        ∃ f, f ∈ futures ∧ completion f = Exception e) ∧
  (∀ st, WaitAllSuccess futures = Return st → st ≠ success →
         is_Unit = false ∧
         ∃ f v, f ∈ futures ∧ completion f = Value v ∧ value_status v = st).
Proof.
  induction futures as [|f futures [IHe IHs]].
  { unfold WaitAllSuccess. cbn. split; [done|]. by intros st [= <-]. }
  assert (Hhead : ∀ o, WaitAllSuccess [f] = o →
            match o with
            | Throw e => completion f = Exception e
            | Return st => st = success ∨
                (is_Unit = false ∧ ∃ v, completion f = Value v ∧ value_status v = st)
            end).
  { intros o <-. unfold WaitAllSuccess. destruct f as [[v|e]]; cbn; [|done].
    destruct is_Unit; cbn; [by left|].
    destruct (bool_decide (value_status v = success)); cbn; [by left|].
    right. eauto. }
  rewrite WaitAllSuccess_cons.
  destruct (WaitAllSuccess [f]) as [st0|e0] eqn:Hf; specialize (Hhead _ eq_refl).
  - destruct Hhead as [->|(Hu & v & Hv & Hst)]; cbn.
    + split.
      * intros e He. destruct (IHe e He) as (g & Hg & Hge).
        exists g. split; [by apply list_elem_of_further|done].
      * intros st Hst Hne. destruct (IHs st Hst Hne) as (Hu & g & v & Hg & Hgv).
        split; [done|]. exists g, v. split; [by apply list_elem_of_further|done].
    + destruct st0; cbn.
      * split.
        -- intros e He. destruct (IHe e He) as (g & Hg & Hge).
           exists g. split; [by apply list_elem_of_further|done].
        -- intros st Hst' Hne. destruct (IHs st Hst' Hne) as (Hu' & g & v' & Hg & Hgv).
           split; [done|]. exists g, v'. split; [by apply list_elem_of_further|done].
      * split; [done|]. intros st [= <-] _. split; [done|].
        exists f, v. split; [apply list_elem_of_here|done].
  - cbn. split.
    + intros e [= <-]. exists f. split; [apply list_elem_of_here|done].
    + done.
Qed.

Lemma WaitAllSuccess_outcome_from_handle_witness :
  ∃ f, f ∈ [ready success; failed (mkException "bad_alloc"); ready (non_success 4)] ∧
       completion f = Exception (mkException "bad_alloc").
Proof.
  apply (WaitAllSuccess_outcome_from_handle
           [ready success; failed (mkException "bad_alloc"); ready (non_success 4)]).
  reflexivity.
Defined.

Lemma WaitAllSuccess_raises_first_error_unit (pre : list unit) e
    (post : list (Future unit)) :
  WaitAllSuccess ((ready <$> pre) ++ failed e :: post) = Throw e.
Proof.
  rewrite WaitAllSuccess_skip; [done|].
  apply Forall_forall. intros v _. by left.
Qed.

Lemma WaitAllSuccess_Unit_cases (futures : list (Future unit)) :
  (Forall (λ f, ∃ v, completion f = Value v) futures ∧
   WaitAllSuccess futures = Return success) ∨
  (∃ pre e post, futures = (ready <$> pre) ++ failed e :: post ∧
                 WaitAllSuccess futures = Throw e).
Proof.
  induction futures as [|f futures IH]; [by left|].
  destruct f as [[v|e]].
  - destruct IH as [[Hall Hrun]|(pre & e & post & -> & Hrun)].
    + left. split; [constructor; [by exists v|done]|]. exact Hrun.
    + right. exists (v :: pre), e, post. split; [done|].
      apply (WaitAllSuccess_raises_first_error_unit (v :: pre)).
  - right. by exists [], e, futures.
Qed.

(** X13.  Over handles of [folly::Unit] the call returns success when no
    handle raised an error, the empty vector included, and raises the first
    error in sequence order otherwise; it never returns another status. *)
Theorem WaitAllSuccess_Unit (futures : list (Future unit)) :
  (∀ st, WaitAllSuccess futures = Return st → st = success) ∧
  ((∀ f e, f ∈ futures → completion f ≠ Exception e) →
   WaitAllSuccess futures = Return success) ∧
  (∀ pre e post, futures = (ready <$> pre) ++ failed e :: post →
                 WaitAllSuccess futures = Throw e).
Proof.
  split; [|split].
  - destruct (WaitAllSuccess_Unit_cases futures) as [[_ ->]|(pre & e & post & _ & ->)];
      [by intros st [= <-]|done].
  - intros Hno.
    destruct (WaitAllSuccess_Unit_cases futures) as [[_ ->]|(pre & e & post & -> & _)];
      [done|].
    destruct (Hno (failed e) e); [|done].
    apply elem_of_app. right. apply list_elem_of_here.
  - intros pre e post ->. apply WaitAllSuccess_raises_first_error_unit.
Qed.

Lemma WaitAllSuccess_Unit_witness :
  WaitAllSuccess [ready tt; ready tt] = Return success ∧
  WaitAllSuccess ((ready <$> [tt; tt]) ++
                  failed (mkException "bad_alloc") :: [failed (mkException "later")])
    = Throw (mkException "bad_alloc").
Proof.
  split.
  - apply (WaitAllSuccess_Unit [ready tt; ready tt]).
    intros f e Hf Hc.
    apply elem_of_cons in Hf as [->|Hf]; [discriminate Hc|].
    apply elem_of_cons in Hf as [->|Hf]; [discriminate Hc|].
    by apply elem_of_nil in Hf.
  - by apply (WaitAllSuccess_Unit
                ((ready <$> [tt; tt]) ++
                 failed (mkException "bad_alloc") :: [failed (mkException "later")]))
      with (pre := [tt; tt]) (post := [failed (mkException "later")]).
Defined.

(** ** The worker threads on Linux *)

(** X14.  Whatever [setpriority] answers, the new thread runs the worker
    function: a failure to lower the priority costs one error line in the
    log, carrying the text of [strerror], a success one info line, and the
    function then runs on the state with that line added. *)
Theorem newThread_func_runs_worker {A : Type} (setpriority : Z → Z → Z → Z)
    (gettid : Z) (strerror_errno : string) (func : M A) (s : State) :
  ∃ e, newThread_func setpriority gettid strerror_errno func s = func (with_log e s) ∧
       log_level e = (if decide (setpriority PRIO_PROCESS gettid 19 = 0) then INFO else ERROR) ∧
       (setpriority PRIO_PROCESS gettid 19 ≠ 0 →
        log_text e = "Failed to set priority of knowhere thread. Error is: " +:+ strerror_errno).
Proof.
  unfold newThread_func.
  destruct (decide (setpriority PRIO_PROCESS gettid 19 = 0)) as [H0|H0].
  - rewrite bool_decide_eq_false_2 by (by intros ?). eexists. split; [reflexivity|]. by split.
  - rewrite bool_decide_eq_true_2 by done. eexists. split; [reflexivity|]. by split.
Qed.

Lemma newThread_func_runs_worker_witness :
  ∃ e, newThread_func (λ _ _ _, -1) 4711 "Permission denied" omp_get_max_threads
         (initial_state 8) = omp_get_max_threads (with_log e (initial_state 8)) ∧
       log_level e = ERROR ∧
       log_text e = "Failed to set priority of knowhere thread. Error is: Permission denied".
Proof.
  destruct (newThread_func_runs_worker (λ _ _ _, -1) 4711 "Permission denied"
              omp_get_max_threads (initial_state 8)) as (e & Hrun & Hlvl & Htxt).
  exists e. split; [exact Hrun|]. split; [exact Hlvl|]. apply Htxt. done.
Defined.

(** ** Threads on the registry *)

Module InterleavedSafety.

Import Interleaved InterleavedFacts.

Lemma reachable_inv linux σ : reachable linux σ → inv σ.
Proof.
  intros (omp & programs & schedule & ->).
  apply run_inv, inv_start.
Qed.

Lemma count_pos_inv f ts :
  (1 ≤ count f ts)%nat → ∃ i t, ts !! i = Some t ∧ f t = true.
Proof.
  induction ts as [|t ts IH]; [cbn; lia|].
  rewrite count_cons. destruct (f t) eqn:Hf.
  - intros _. by exists 0%nat, t.
  - cbn. intros Hpos. destruct (IH Hpos) as (i & u & Hi & Hu). by exists (S i), u.
Qed.

Lemma holds_can_step linux c t σ : holds c t = true → can_step linux t σ.
Proof.
  unfold holds, can_step, thread_step.
  destruct (pc t) as [|c' n ph ret| | | | |]; try done.
  destruct ph; try done; intros _; cbn; try done.
  by destruct (global_pool c' (mem σ)).
Qed.

End InterleavedSafety.

(** X15.  In every process reachable under some schedule, a thread that
    cannot take a step has returned from the last call of its program or
    waits for a mutex that is held: no step of the registry dereferences a
    static that is null or a pointer that owns nothing. *)
Theorem registry_steps_never_dereference_null (linux : bool) (σ : Interleaved.Process)
    (i : nat) (t : Interleaved.Thread) :
  reachable linux σ →
  Interleaved.threads σ !! i = Some t →
  ¬ can_step linux t σ →
  finished t ∨ ∃ c, waits_for c t ∧ Interleaved.mutex c σ = true.
Proof.
  intros Hreach Hi Hstuck. unfold can_step in Hstuck.
  destruct (Interleaved.thread_step linux t σ) eqn:Hstep; [by destruct Hstuck|].
  destruct (InterleavedFacts.thread_step_None linux σ i t
              (InterleavedSafety.reachable_inv linux σ Hreach) Hi Hstep)
    as [Hfin|(c & n & ret & Hpc & Hm)]; [by left|].
  right. exists c. split; [by exists n, ret|done].
Qed.

(** X16.  In every reachable process at most one thread is inside the
    region that the mutex of a class guards, from the test under the lock to
    the release. *)
Theorem registry_mutual_exclusion (linux : bool) (σ : Interleaved.Process)
    (c : WorkloadClass) (i j : nat) (ti tj : Interleaved.Thread) :
  reachable linux σ →
  Interleaved.threads σ !! i = Some ti →
  Interleaved.threads σ !! j = Some tj →
  Interleaved.holds c ti = true →
  Interleaved.holds c tj = true →
  i = j.
Proof.
  intros Hreach Hi Hj Hti Htj. destruct (decide (i = j)) as [|Hne]; [done|].
  pose proof (InterleavedSafety.reachable_inv linux σ Hreach c) as [Hmutex _ _ _ _ _].
  pose proof (InterleavedFacts.count_two _ _ i j ti tj Hne Hi Hj Hti Htj) as Htwo.
  rewrite Hmutex in Htwo. destruct (Interleaved.mutex c σ); cbn in Htwo; lia.
Qed.

(** X17.  The registry does not deadlock: in every reachable process in
    which some thread has not returned from its last call, some thread can
    take a step. *)
Theorem registry_never_deadlocks (linux : bool) (σ : Interleaved.Process)
    (i : nat) (t : Interleaved.Thread) :
  reachable linux σ →
  Interleaved.threads σ !! i = Some t →
  ¬ finished t →
  ∃ j tj, Interleaved.threads σ !! j = Some tj ∧ can_step linux tj σ.
Proof.
  intros Hreach Hi Hnot.
  destruct (Interleaved.thread_step linux t σ) as [r|] eqn:Hstep.
  { exists i, t. split; [done|]. unfold can_step. by rewrite Hstep. }
  pose proof (InterleavedSafety.reachable_inv linux σ Hreach) as Hinv.
  destruct (InterleavedFacts.thread_step_None linux σ i t Hinv Hi Hstep)
    as [Hfin|(c & n & ret & Hpc & Hm)]; [done|].
  destruct (Hinv c) as [Hmutex _ _ _ _ _]. rewrite Hm in Hmutex.
  destruct (InterleavedSafety.count_pos_inv (Interleaved.holds c) (Interleaved.threads σ))
    as (j & tj & Hj & Hholds); [rewrite Hmutex; cbn; lia|].
  exists j, tj. split; [done|]. by eapply InterleavedSafety.holds_can_step.
Qed.

(** ** The getter under interleaving *)

Module InterleavedGetter.

Import Interleaved InterleavedFacts.

Lemma returned_static_kept m m' p :
  (∀ c, static_kept c m m') → returned_static m p → returned_static m' p.
Proof. intros Hkept (c & a & -> & Hc). exists c, a. split; [done|]. by apply Hkept. Qed.

Lemma is_Some_kept c m m' :
  static_kept c m m' → is_Some (global_pool c m) → is_Some (global_pool c m').
Proof. intros Hkept [a Ha]. exists a. by apply Hkept. Qed.

Lemma thread_ok_kept m m' t :
  (∀ c, static_kept c m m') → thread_ok m t → thread_ok m' t.
Proof.
  intros Hkept (Htodo & Hgot & Hpc). split; [done|]. split.
  - eapply Forall_impl; [exact Hgot|]. intros p. by apply returned_static_kept.
  - destruct (pc t) as [|c n ph [] | | | | |c]; try done.
    + destruct Hpc as [Hn Hph]. split; [done|].
      destruct ph; try done; by eapply is_Some_kept.
    + by eapply is_Some_kept.
Qed.

Lemma thread_step_ok linux σ i t t' σ1 :
  inv σ → threads σ !! i = Some t →
  thread_step linux t σ = Some (t', σ1) →
  thread_ok (mem σ) t → thread_ok (mem σ1) t'.
Proof.
  intros Hinv Hi Hstep Hok.
  assert (Hkept : ∀ c, static_kept c (mem σ) (mem σ1)).
  { intros c. by destruct (thread_step_inv linux σ i t t' σ1 Hinv Hi Hstep c). }
  destruct Hok as (Htodo & Hgot & Hpc).
  assert (Hgot' : Forall (returned_static (mem σ1)) (got t)).
  { eapply Forall_impl; [exact Hgot|]. intros p. by apply returned_static_kept. }
  unfold thread_step in Hstep.
  destruct (pc t) as [|c n ph ret|c n|c n|c|c hc|c] eqn:Hpceq.
  - destruct (todo t) as [|op rest]; [done|]. injection Hstep as <- <-.
    apply Forall_cons in Htodo as [Hop Hrest].
    split; [done|]. split; [done|]. by destruct op.
  - destruct ph as [| | | | |a| | |].
    + destruct (Z.leb_spec n 0) as [Hn|Hn].
      * injection Hstep as <- <-. split; [done|]. split; [done|]. cbn.
        destruct ret; [done|]. lia.
      * injection Hstep as <- <-. split; [done|]. split; [done|]. cbn. by destruct ret.
    + destruct (global_pool c (mem σ)) eqn:Hgp; injection Hstep as <- <-;
        (split; [done|]; split; [done|]); cbn; destruct ret; try done.
      split; [apply Hpc|]. by rewrite Hgp.
    + destruct (mutex c σ); [done|]. injection Hstep as <- <-.
      split; [done|]. split; [done|]. cbn. by destruct ret.
    + destruct (global_pool c (mem σ)) eqn:Hgp; injection Hstep as <- <-;
        (split; [done|]; split; [done|]); cbn; destruct ret; try done.
      split; [apply Hpc|]. by rewrite Hgp.
    + cbn in Hstep. injection Hstep as <- <-.
      split; [done|]. split; [done|]. cbn. by destruct ret.
    + cbn in Hstep. injection Hstep as <- <-.
      split; [done|]. split; [done|]. cbn. destruct ret; [done|].
      split; [apply Hpc|]. rewrite global_pool_with_global_pool, decide_True by done. eauto.
    + cbn in Hstep. injection Hstep as <- <-.
      split; [done|]. split; [done|]. cbn. destruct ret; [done|].
      split; [apply Hpc|]. rewrite global_pool_with_log. apply Hpc.
    + injection Hstep as <- <-.
      split; [done|]. split; [done|]. cbn. destruct ret; [done|]. cbn.
      rewrite mem_with_mutex. apply Hpc.
    + destruct (global_pool c (mem σ)) as [a|] eqn:Hgp; [|done]. cbn in Hstep.
      destruct (on_mem (log_size _ a) σ) as [[[] σ']|] eqn:Hlog; [|done].
      apply on_mem_log_size in Hlog as [e ->]. injection Hstep as <- <-.
      split; [done|]. split; [done|]. cbn. destruct ret; [done|]. cbn.
      rewrite global_pool_with_log, Hgp. eauto.
  - destruct (global_pool c (mem σ)); injection Hstep as <- <-;
      by (split; [done|]; split; [done|]).
  - destruct (global_pool c (mem σ)) as [a|] eqn:Hgp; [|done]. cbn in Hstep.
    destruct (on_mem (SetNumThreads a n) σ) as [[[] σ']|] eqn:Hset; [|done].
    injection Hstep as <- <-. by (split; [done|]; split; [done|]).
  - destruct (global_pool c (mem σ)) as [a|] eqn:Hgp; [|done]. cbn in Hstep.
    destruct (on_mem (log_size _ a) σ) as [[[] σ']|] eqn:Hlog; [|done].
    injection Hstep as <- <-. by (split; [done|]; split; [done|]).
  - destruct (global_pool c (mem σ)) eqn:Hgp; injection Hstep as <- <-;
      (split; [done|]; split; [done|]); cbn.
    + by rewrite Hgp.
    + done.
  - injection Hstep as <- <-. split; [done|]. split; [|done]. cbn.
    apply Forall_app. split; [done|]. apply Forall_singleton.
    destruct Hpc as [a Ha]. by exists c, a.
Qed.

Lemma on_mem_threads {A : Type} (m : M A) σ x σ' :
  on_mem m σ = Some (x, σ') → threads σ' = threads σ.
Proof. unfold on_mem. destruct (m (mem σ)) as [[??]|]; [|done]. by intros [= _ <-]. Qed.

Lemma thread_step_threads linux t σ t' σ1 :
  thread_step linux t σ = Some (t', σ1) → threads σ1 = threads σ.
Proof.
  unfold thread_step. intros Hstep.
  destruct (pc t) as [|c n ph ret|c n|c n|c|c hc|c].
  - destruct (todo t); [done|]. by injection Hstep as _ <-.
  - destruct ph as [| | | | |a| | |].
    + destruct (n <=? 0); by injection Hstep as _ <-.
    + destruct (global_pool c (mem σ)); by injection Hstep as _ <-.
    + destruct (mutex c σ); [done|]. injection Hstep as _ <-. apply threads_with_mutex.
    + destruct (global_pool c (mem σ)); by injection Hstep as _ <-.
    + cbn in Hstep. by injection Hstep as _ <-.
    + cbn in Hstep. by injection Hstep as _ <-.
    + cbn in Hstep. by injection Hstep as _ <-.
    + injection Hstep as _ <-. apply threads_with_mutex.
    + destruct (global_pool c (mem σ)) as [a|]; [|done]. cbn in Hstep.
      destruct (on_mem (log_size _ a) σ) as [[[] σ']|] eqn:Hlog; [|done].
      injection Hstep as _ <-. by eapply on_mem_threads.
  - destruct (global_pool c (mem σ)); by injection Hstep as _ <-.
  - destruct (global_pool c (mem σ)) as [a|]; [|done]. cbn in Hstep.
    destruct (on_mem (SetNumThreads a n) σ) as [[[] σ']|] eqn:Hset; [|done].
    injection Hstep as _ <-. by eapply on_mem_threads.
  - destruct (global_pool c (mem σ)) as [a|]; [|done]. cbn in Hstep.
    destruct (on_mem (log_size _ a) σ) as [[[] σ']|] eqn:Hlog; [|done].
    injection Hstep as _ <-. by eapply on_mem_threads.
  - destruct (global_pool c (mem σ)); by injection Hstep as _ <-.
  - by injection Hstep as _ <-.
Qed.

Lemma step_ok linux i σ σ' :
  inv σ → all_ok σ → step linux i σ = Some σ' → all_ok σ'.
Proof.
  intros Hinv Hok Hstep. unfold step in Hstep.
  destruct (threads σ !! i) as [t|] eqn:Hi; [|done]. cbn in Hstep.
  destruct (thread_step linux t σ) as [[t' σ1]|] eqn:Ht; [|done].
  injection Hstep as <-.
  pose proof (thread_step_threads linux t σ t' σ1 Ht) as Hts.
  intros j tj Hj. cbn [mem threads with_thread] in *. rewrite Hts in Hj.
  destruct (decide (i = j)) as [<-|Hne].
  - rewrite list_lookup_insert_eq in Hj by (by eapply lookup_lt_Some).
    injection Hj as <-. apply (thread_step_ok linux σ i t); [done|done|done|by apply (Hok i)].
  - rewrite list_lookup_insert_ne in Hj by done.
    eapply thread_ok_kept; [|by apply (Hok j)].
    intros c. by destruct (thread_step_inv linux σ i t t' σ1 Hinv Hi Ht c).
Qed.

Lemma run_ok linux schedule σ :
  inv σ → all_ok σ → all_ok (run linux schedule σ).
Proof.
  revert σ. induction schedule as [|i schedule IH]; intros σ Hinv Hok; [done|].
  cbn [run]. destruct (step linux i σ) as [σ'|] eqn:Hstep; cbn [default].
  - apply IH; [by eapply step_inv|by eapply step_ok].
  - by apply IH.
Qed.

Lemma start_ok omp programs :
  Forall positive_gets programs → all_ok (start omp programs).
Proof.
  intros Hpos i t. cbn. rewrite list_lookup_fmap.
  destruct (programs !! i) as [ops|] eqn:Hops; cbn; [|done]. intros [= <-].
  split; [|by split]. cbn. by eapply Forall_lookup_1.
Qed.

End InterleavedGetter.

(** X18.  Where every call of the getter is given a hardware concurrency of
    at least 1, then under every schedule a thread that is about to return
    from the getter of a class returns the static of that class and that
    static is not null, and every pointer a thread has got from the getter
    is a pointer that is not null and is still the static of a class. *)
Theorem getter_never_returns_null (linux : bool) (omp : Z)
    (programs : list (list RegistryOp)) (schedule : list nat)
    (i : nat) (t : Interleaved.Thread) :
  Forall positive_gets programs →
  Interleaved.threads (Interleaved.run linux schedule (Interleaved.start omp programs)) !! i
    = Some t →
  (∀ c, Interleaved.pc t = Interleaved.GetReturn c →
        ∃ t' σ' a,
          Interleaved.thread_step linux t
            (Interleaved.run linux schedule (Interleaved.start omp programs)) = Some (t', σ') ∧
          Interleaved.got t' = Interleaved.got t ++ [Some a] ∧
          global_pool c (Interleaved.mem σ') = Some a) ∧
  (∀ p, p ∈ Interleaved.got t →
        returned_static
          (Interleaved.mem (Interleaved.run linux schedule (Interleaved.start omp programs))) p).
Proof.
  intros Hpos Hi.
  pose proof (InterleavedGetter.run_ok linux schedule _
                (InterleavedFacts.inv_start omp programs)
                (InterleavedGetter.start_ok omp programs Hpos) i t Hi) as (_ & Hgot & Hpc).
  split.
  - intros c Hc. rewrite Hc in Hpc. destruct Hpc as [a Ha].
    unfold Interleaved.thread_step. rewrite Hc. eexists _, _, a.
    split; [reflexivity|]. cbn. by rewrite Ha.
  - intros p Hp. by eapply Forall_forall in Hgot.
Qed.

Lemma getter_never_returns_null_witness :
  returned_static
    (Interleaved.mem
       (Interleaved.run true (replicate 16 0%nat)
          (Interleaved.start 8 [[OpGet Build 2; OpGet Build 1]]))) (Some 0%nat).
Proof.
  apply (getter_never_returns_null true 8 [[OpGet Build 2; OpGet Build 1]]
           (replicate 16 0%nat) 0%nat
           {| Interleaved.pc := Interleaved.Idle; Interleaved.todo := [];
              Interleaved.got := [Some 0%nat; Some 0%nat] |}).
  - repeat constructor; cbn; lia.
  - reflexivity.
  - apply list_elem_of_here.
Defined.

Lemma race_process_reachable : reachable true race_process.
Proof. by exists 8, [[OpInit Build 4]; [OpInit Build 7]], [0; 0; 0; 1; 1; 1; 1]%nat. Qed.

Lemma registry_steps_never_dereference_null_witness :
  finished {| Interleaved.pc := Interleaved.Init Build 4 Interleaved.AtLock Interleaved.ToClient;
              Interleaved.todo := []; Interleaved.got := [] |} ∨
  ∃ c, waits_for c
         {| Interleaved.pc := Interleaved.Init Build 4 Interleaved.AtLock Interleaved.ToClient;
            Interleaved.todo := []; Interleaved.got := [] |} ∧
       Interleaved.mutex c race_process = true.
Proof.
  apply (registry_steps_never_dereference_null true race_process 0%nat).
  - apply race_process_reachable.
  - reflexivity.
  - intros [r Hr]. discriminate Hr.
Defined.

Lemma registry_mutual_exclusion_witness : 1%nat = 1%nat.
Proof.
  apply (registry_mutual_exclusion true race_process Build 1%nat 1%nat
           {| Interleaved.pc := Interleaved.Init Build 7 Interleaved.AtInnerTest Interleaved.ToClient;
              Interleaved.todo := []; Interleaved.got := [] |}
           {| Interleaved.pc := Interleaved.Init Build 7 Interleaved.AtInnerTest Interleaved.ToClient;
              Interleaved.todo := []; Interleaved.got := [] |});
    [apply race_process_reachable|reflexivity..].
Defined.

Lemma registry_never_deadlocks_witness :
  ∃ j tj, Interleaved.threads race_process !! j = Some tj ∧ can_step true tj race_process.
Proof.
  apply (registry_never_deadlocks true race_process 0%nat
           {| Interleaved.pc := Interleaved.Init Build 4 Interleaved.AtLock Interleaved.ToClient;
              Interleaved.todo := []; Interleaved.got := [] |}).
  - apply race_process_reachable.
  - reflexivity.
  - intros [Hpc _]. discriminate Hpc.
Defined.

(** ** The constructor over the whole range of its parameter *)

(** X19.  For every [uint32_t] thread count the constructor hands the
    executor that count and the capacity [16 * count] without wrap-around;
    [size()] is the count up to [INT32_MAX] and the count minus [2^32], a
    negative number, for every count above. *)
Theorem ThreadPool_new_full_range (linux : bool) (n : Z) (prefix : string) :
  Int.is_uint32 n →
  numThreads (pool_ (ThreadPool_new linux n prefix)) = n ∧
  queue_capacity (ThreadPool_new linux n prefix) = 16 * n ∧
  (n <= Int.INT32_MAX → size (ThreadPool_new linux n prefix) = n) ∧
  (Int.INT32_MAX < n → size (ThreadPool_new linux n prefix) = n - 2 ^ 32 ∧
                       size (ThreadPool_new linux n prefix) < 0).
Proof.
  intros Hn. pose proof Hn as Hrange. unfold Int.is_uint32 in Hrange.
  split; [by apply ThreadPool_new_numThreads|].
  split; [rewrite ThreadPool_new_capacity by done; unfold kTaskQueueFactor; lia|].
  unfold Int.INT32_MAX. split.
  - intros Hmax. apply ThreadPool_new_size. unfold Int.INT32_MAX. lia.
  - intros Hmax. unfold size. rewrite ThreadPool_new_numThreads by done.
    rewrite to_int32_high by lia. lia.
Qed.

Lemma ThreadPool_new_full_range_witness :
  numThreads (pool_ (ThreadPool_new true (2 ^ 32 - 1) "knowhere_build")) = 2 ^ 32 - 1 ∧
  queue_capacity (ThreadPool_new true (2 ^ 32 - 1) "knowhere_build") = 16 * (2 ^ 32 - 1) ∧
  (2 ^ 32 - 1 <= Int.INT32_MAX →
   size (ThreadPool_new true (2 ^ 32 - 1) "knowhere_build") = 2 ^ 32 - 1) ∧
  (Int.INT32_MAX < 2 ^ 32 - 1 →
   size (ThreadPool_new true (2 ^ 32 - 1) "knowhere_build") = 2 ^ 32 - 1 - 2 ^ 32 ∧
   size (ThreadPool_new true (2 ^ 32 - 1) "knowhere_build") < 0).
Proof.
  apply (ThreadPool_new_full_range true (2 ^ 32 - 1) "knowhere_build").
  unfold Int.is_uint32. lia.
Defined.

(** ** A thread running alone *)

Module Alone.

Import Interleaved InterleavedFacts.

Lemma run_app linux l1 l2 σ : run linux (l1 ++ l2) σ = run linux l2 (run linux l1 σ).
Proof. revert σ. induction l1 as [|i l1 IH]; intros σ; [done|]. cbn. apply IH. Qed.

Lemma replicate_add {A : Type} (j k : nat) (x : A) :
  replicate (j + k) x = replicate j x ++ replicate k x.
Proof. induction j as [|j IH]; [done|]. cbn. by rewrite IH. Qed.

Lemma run_cons linux i l σ σ' :
  step linux i σ = Some σ' → run linux (i :: l) σ = run linux l σ'.
Proof. intros Hstep. cbn. by rewrite Hstep. Qed.

Ltac rewrite_eqs :=
  repeat match goal with
  | H : _ = _ |- _ => rewrite H
  end.

Ltac one_step :=
  cbn [replicate]; eapply eq_trans;
  [ apply run_cons; unfold step, thread_step; cbn;
    rewrite ?global_pool_with_log, ?global_pool_with_heap; rewrite_eqs; cbn;
    try (erewrite on_mem_log_size_owned by (cbn; eassumption); cbn);
    reflexivity
  | cbn -[run replicate] ].

Lemma InitGlobalThreadPool_entered linux c n ret rest g s :
  registry_inv s →
  ∃ k s', InitGlobalThreadPool linux c n s = Some (tt, s') ∧
          run linux (replicate k 0%nat) (at_pc s (Init c n AtGuard ret) rest g)
            = at_pc s' (after_init ret c) rest g.
Proof.
  intros Hinv. destruct (Z.leb_spec n 0) as [Hn|Hn].
  { exists 1%nat. eexists. split; [by apply InitGlobalThreadPool_rejected|].
    apply Z.leb_le in Hn. clear Hinv. one_step. reflexivity. }
  destruct (global_pool c s) as [a|] eqn:Hc.
  - destruct (registry_inv_owned c a s Hinv Hc) as (p & Hp & _).
    exists 3%nat. eexists. split; [by apply (InitGlobalThreadPool_set linux c n a p)|].
    apply Z.leb_gt in Hn. clear Hinv. do 3 one_step. reflexivity.
  - exists 8%nat. eexists. split; [by apply InitGlobalThreadPool_unset|].
    apply Z.leb_gt in Hn. clear Hinv. destruct c; cbn in Hc; do 8 one_step; reflexivity.
Qed.

Lemma run_S linux k σ σ' :
  step linux 0%nat σ = Some σ' →
  run linux (replicate (S k) 0%nat) σ = run linux (replicate k 0%nat) σ'.
Proof. apply run_cons. Qed.

Lemma InitGlobalThreadPool_alone linux c n rest g s :
  registry_inv s →
  ∃ k s', InitGlobalThreadPool linux c n s = Some (tt, s') ∧
          run linux (replicate k 0%nat) (alone s (OpInit c n :: rest) g) = alone s' rest g.
Proof.
  intros Hinv.
  destruct (InitGlobalThreadPool_entered linux c n ToClient rest g s Hinv)
    as (k & s' & Hrun & Hk).
  exists (S k), s'. split; [done|].
  by rewrite (run_S _ _ _ (at_pc s (Init c n AtGuard ToClient) rest g)).
Qed.

Lemma SetGlobalThreadPoolSize_alone linux c n rest g s :
  registry_inv s →
  ∃ k s', SetGlobalThreadPoolSize linux c n s = Some (tt, s') ∧
          run linux (replicate k 0%nat) (alone s (OpSetSize c n :: rest) g) = alone s' rest g.
Proof.
  intros Hinv. destruct (global_pool c s) as [a|] eqn:Hc.
  - destruct (registry_inv_owned c a s Hinv Hc) as (p & Hp & _). clear Hinv.
    exists 4%nat. destruct (decide (n = 0)) as [->|Hn].
    + eexists. split; [by apply (SetGlobalThreadPoolSize_set_zero linux c a p)|].
      do 4 one_step. reflexivity.
    + eexists. split; [by apply (SetGlobalThreadPoolSize_set linux c n a p)|].
      apply Z.eqb_neq in Hn.
      assert (Hp' : ∀ q, <[a := q]> (heap s) !! a = Some q).
      { intros q. apply list_lookup_insert_eq. by eapply lookup_lt_Some. }
      do 2 one_step.
      cbn [replicate]. eapply eq_trans.
      { apply run_cons. unfold step, thread_step. cbn. rewrite Hc. cbn.
        unfold on_mem, SetNumThreads. rewrite Hn. unfold_M. cbn. rewrite Hp. reflexivity. }
      cbn -[run replicate].
      cbn [replicate]. eapply eq_trans.
      { apply run_cons. unfold step, thread_step. cbn.
        rewrite global_pool_with_heap, Hc. cbn.
        erewrite on_mem_log_size_owned by (cbn; apply Hp'). reflexivity. }
      reflexivity.
  - rewrite SetGlobalThreadPoolSize_unset by done.
    destruct (InitGlobalThreadPool_entered linux c n ToClient rest g s Hinv)
      as (k & s' & Hrun & Hk).
    exists (S (S k)), s'. split; [done|].
    rewrite (run_S _ _ _ (at_pc s (SetTest c n) rest g)) by done.
    rewrite (run_S _ _ _ (at_pc s (Init c n AtGuard ToClient) rest g)); [done|].
    unfold step, thread_step. cbn. by rewrite Hc.
Qed.

Lemma GetGlobalThreadPool_alone linux c hc rest g s :
  registry_inv s →
  ∃ k r s', GetGlobalThreadPool linux c hc s = Some (r, s') ∧
            run linux (replicate k 0%nat) (alone s (OpGet c hc :: rest) g)
              = alone s' rest (g ++ [r]).
Proof.
  intros Hinv. destruct (global_pool c s) as [a|] eqn:Hc.
  - exists 3%nat, (Some a), s. split; [by apply GetGlobalThreadPool_set|].
    clear Hinv. do 3 one_step. reflexivity.
  - rewrite GetGlobalThreadPool_unset by done.
    destruct (InitGlobalThreadPool_entered linux c hc ToGet rest g s Hinv)
      as (k & s' & Hrun & Hk).
    rewrite Hrun. exists (S (S (k + 1))), (global_pool c s'), s'. split; [done|].
    rewrite (run_S _ _ _ (at_pc s (GetTest c hc) rest g)) by done.
    rewrite (run_S _ _ _ (at_pc s (Init c hc AtGuard ToGet) rest g)).
    + rewrite replicate_add, run_app, Hk. reflexivity.
    + unfold step, thread_step. cbn. by rewrite Hc.
Qed.

Lemma run_finished linux k s g :
  run linux (replicate k 0%nat) (alone s [] g) = alone s [] g.
Proof. induction k as [|k IH]; [done|]. cbn. exact IH. Qed.

Lemma run_ops_alone linux ops g s :
  registry_inv s →
  ∃ k s' g', run_ops linux ops s = Some (tt, s') ∧
             run linux (replicate k 0%nat) (alone s ops g) = alone s' [] g'.
Proof.
  revert g s. induction ops as [|op ops IH]; intros g s Hinv.
  - by exists 0%nat, s, g.
  - destruct (run_op_keeps linux op s Hinv) as (s1 & Hop & Hinv1 & _).
    assert (Hone : ∃ k g1, run linux (replicate k 0%nat) (alone s (op :: ops) g)
                           = alone s1 ops g1).
    { destruct op as [c n|c n|c hc]; cbn [run_op] in Hop.
      - destruct (InitGlobalThreadPool_alone linux c n ops g s Hinv) as (k & s' & Hf & Hk).
        exists k, g. congruence.
      - destruct (SetGlobalThreadPoolSize_alone linux c n ops g s Hinv) as (k & s' & Hf & Hk).
        exists k, g. congruence.
      - destruct (GetGlobalThreadPool_alone linux c hc ops g s Hinv) as (k & r & s' & Hf & Hk).
        unfold mbind, M_bind in Hop. rewrite Hf in Hop. injection Hop as <-.
        by exists k, (g ++ [r]). }
    destruct Hone as (k1 & g1 & Hk1).
    destruct (IH g1 s1 Hinv1) as (k2 & s2 & g2 & Hops & Hk2).
    exists (k1 + k2)%nat, s2, g2. split.
    + cbn [run_ops]. unfold mbind, M_bind. by rewrite Hop.
    + by rewrite replicate_add, run_app, Hk1.
Qed.

End Alone.

(** X20.  The steps agree with the member functions: a thread that runs a
    program of calls alone, from a state of the registry, comes to rest
    after finitely many steps, with both mutexes free and the memory exactly
    as the calls made one after the other on one thread of control leave
    it; and a call of the getter run alone records the pointer that the
    member function returns. *)
Theorem thread_alone_refines (linux : bool) (ops : list RegistryOp) (g : list ptr)
    (s : State) :
  registry_inv s →
  (∃ k s' g', run_ops linux ops s = Some (tt, s') ∧
              ∀ k', (k ≤ k')%nat →
                    Interleaved.run linux (replicate k' 0%nat) (alone s ops g)
                      = alone s' [] g') ∧
  (∀ c hc, ∃ k r s', GetGlobalThreadPool linux c hc s = Some (r, s') ∧
                     Interleaved.run linux (replicate k 0%nat) (alone s [OpGet c hc] g)
                       = alone s' [] (g ++ [r])).
Proof.
  intros Hinv. split.
  - destruct (Alone.run_ops_alone linux ops g s Hinv) as (k & s' & g' & Hrun & Hk).
    exists k, s', g'. split; [done|]. intros k' Hle.
    replace k' with (k + (k' - k))%nat by lia.
    by rewrite Alone.replicate_add, Alone.run_app, Hk, Alone.run_finished.
  - intros c hc. by apply Alone.GetGlobalThreadPool_alone.
Qed.

Lemma thread_alone_refines_witness :
  ∃ k s' g', run_ops true [OpInit Build 4; OpGet Search 2; OpSetSize Build 3]
               (initial_state 8) = Some (tt, s') ∧
             ∀ k', (k ≤ k')%nat →
                   Interleaved.run true (replicate k' 0%nat)
                     (alone (initial_state 8)
                        [OpInit Build 4; OpGet Search 2; OpSetSize Build 3] [])
                     = alone s' [] g'.
Proof.
  apply (thread_alone_refines true [OpInit Build 4; OpGet Search 2; OpSetSize Build 3] []
           (initial_state 8)).
  apply registry_inv_initial.
Defined.
